(** * Sidekick-App: the audio service and the tools, embedded and verified

    Shallow embedding of [src/services/audioService.ts] ([getPitch],
    [writeVarInt], [generateMidiFile]) and of the tap tempo and note
    conversion logic of [src/components/Tools.tsx], with the caller of the
    encoder in [src/components/VoiceToMidi.tsx] ([downloadMidi]) and the
    duration text and sketch list of [src/components/Recorder.tsx].

    Number model.
    - The MIDI encoder works on tick counts, which are integers: they are [Z],
      and the JavaScript bit operators are written out with their 32-bit
      wrap-around.  The ticks are computed from the times in two ways: on
      exact rationals [Q], for the statements on the order of the events and
      on the empty list, and on binary64 numbers (module [Binary64]), as the
      code rounds them, for every statement that depends on the value of a
      tick.
    - The pitch estimator and the tap tempo tracker are embedded on binary64
      numbers (primitive floats), so that division by zero, [NaN] and the
      reads of [undefined] behave as they do in JavaScript.
    - The note conversions use [Math.log] and [Math.pow]; they are embedded
      on real numbers, where both are exact. *)

From Stdlib Require Import ZArith List Bool Lia QArith Qround Permutation Sorted.
From Stdlib Require Import Floats Uint63.
From Stdlib Require Import Reals Lra.
From Stdlib Require String Ascii DecimalString DecimalNat.
Import ListNotations.

Set Warnings "-inexact-float".

Local Open Scope Z_scope.

(** ** The option monad, for loops that may not return *)

Definition obind {A B : Type} (m : option A) (k : A -> option B) : option B :=
  match m with
  | Some a => k a
  | None => None
  end.

Notation "x <- m ;; k" := (obind m (fun x => k))
  (at level 61, m at next level, right associativity).

(** ** JavaScript's 32-bit integer operators on integral numbers *)

Module Int32.

(** [ToInt32]: reduce modulo 2^32 into [-2^31, 2^31). *)
Definition toInt32 (x : Z) : Z := (x + 2 ^ 31) mod 2 ^ 32 - 2 ^ 31.

(** [a & b] *)
Definition and (a b : Z) : Z := Z.land (toInt32 a) (toInt32 b).

(** [a | b] *)
Definition or (a b : Z) : Z := Z.lor (toInt32 a) (toInt32 b).

(** [a << k], for a shift count below 32 *)
Definition shl (a k : Z) : Z := toInt32 (Z.shiftl (toInt32 a) k).

(** [a >> k], the sign-propagating shift, for a shift count below 32 *)
Definition sar (a k : Z) : Z := Z.shiftr (toInt32 a) k.

End Int32.

(** ** [writeVarInt] (audioService.ts, lines 85-97)

    The two [while] loops take fuel: the second one does not exit on every
    32-bit buffer. *)

(** [while ((value >>= 7) > 0) { buffer <<= 8; buffer |= 0x80;
     buffer += value & 0x7f; }] *)
Fixpoint writeVarInt_pack (fuel : nat) (value buffer : Z) : option Z :=
  match fuel with
  | O => None
  | S fuel' =>
      let value := Int32.sar value 7 in
      if 0 <? value then
        let buffer := Int32.shl buffer 8 in
        let buffer := Int32.or buffer 0x80 in
        let buffer := buffer + Int32.and value 0x7f in
        writeVarInt_pack fuel' value buffer
      else Some buffer
  end.

(** [while (true) { data.push(buffer & 0xff);
     if (buffer & 0x80) buffer >>= 8; else break; }] *)
Fixpoint writeVarInt_emit (fuel : nat) (buffer : Z) (data : list Z)
  : option (list Z) :=
  match fuel with
  | O => None
  | S fuel' =>
      let data := data ++ [Int32.and buffer 0xff] in
      if negb (Int32.and buffer 0x80 =? 0)
      then writeVarInt_emit fuel' (Int32.sar buffer 8) data
      else Some data
  end.

Definition writeVarInt (fuel : nat) (data : list Z) (value : Z)
  : option (list Z) :=
  buffer <- writeVarInt_pack fuel value (Int32.and value 0x7f) ;;
  writeVarInt_emit fuel buffer data.

(** ** [generateMidiFile] (audioService.ts, lines 99-162)

    The function has no [throw] and calls nothing that raises on a note list:
    its result is the byte content of the blob, or [None] when a call of
    [writeVar] does not return. *)

(** [MidiNote] of types.ts *)
Record MidiNote : Type := mkMidiNote {
  note : Z;
  velocity : Z;
  startTime : Q;
  duration : Q
}.

Inductive EventType : Type := noteOn | noteOff.

(** The local interface [MidiEvent]; its fields [type], [note], [velocity]
    and [time] take the prefix [ev_]. *)
Record MidiEvent : Type := mkMidiEvent {
  ev_type : EventType;
  ev_note : Z;
  ev_velocity : Z;
  ev_time : Z
}.

Definition TICKS_PER_BEAT : Z := 480.

(** The ticks in exact arithmetic.  The code divides and rounds in binary64,
    which can move a quotient onto or across a half: the ticks as the code
    computes them are [Binary64.startTick] and [Binary64.endTick] below. *)
Definition secondsPerTick (bpm : Q) : Q :=
  ((60 / bpm) / inject_Z TICKS_PER_BEAT)%Q.

(** [Math.round]: the nearest integer, a tie going up. *)
Definition Math_round (x : Q) : Z := Qfloor (x + (1 # 2))%Q.

Definition startTick (bpm : Q) (n : MidiNote) : Z :=
  Math_round (startTime n / secondsPerTick bpm)%Q.

Definition endTick (bpm : Q) (n : MidiNote) : Z :=
  Math_round ((startTime n + duration n) / secondsPerTick bpm)%Q.

(** The two [events.push] of one note. *)
Definition note_events (bpm : Q) (n : MidiNote) : list MidiEvent :=
  [ mkMidiEvent noteOn (note n) (velocity n) (startTick bpm n);
    mkMidiEvent noteOff (note n) 0 (endTick bpm n) ].

(** [notes.forEach(n => ...)] *)
Definition note_list_events (bpm : Q) (notes : list MidiNote) : list MidiEvent :=
  flat_map (note_events bpm) notes.

(** [events.sort((a, b) => a.time - b.time)].  [Array.prototype.sort] is
    stable; it is embedded as the stable insertion sort on a key, generic in
    the element so that elements can carry their position. *)
Section StableSort.
Context {A : Type} (key : A -> Z).

Fixpoint insert_by (x : A) (l : list A) : list A :=
  match l with
  | [] => [x]
  | y :: l' => if key x - key y <=? 0 then x :: l else y :: insert_by x l'
  end.

Fixpoint sort_by (l : list A) : list A :=
  match l with
  | [] => []
  | x :: l' => insert_by x (sort_by l')
  end.
End StableSort.

Definition sorted_events (bpm : Q) (notes : list MidiNote) : list MidiEvent :=
  sort_by ev_time (note_list_events bpm notes).

(** The three bytes pushed after the delta-time of an event. *)
Definition event_message (event : MidiEvent) : list Z :=
  match ev_type event with
  | noteOn => [0x90; ev_note event; ev_velocity event]
  | noteOff => [0x80; ev_note event; 0]
  end.

(** [events.forEach(event => ...)], with [currentTime] and [trackData]
    threaded. *)
Fixpoint write_events (fuel : nat) (events : list MidiEvent)
    (currentTime : Z) (trackData : list Z) : option (list Z) :=
  match events with
  | [] => Some trackData
  | event :: rest =>
      let deltaTime := ev_time event - currentTime in
      trackData <- writeVarInt fuel trackData deltaTime ;;
      write_events fuel rest (ev_time event) (trackData ++ event_message event)
  end.

(** The whole of [trackData]: the events, then [writeVar(0)] and the
    end-of-track bytes. *)
Definition track_data (fuel : nat) (notes : list MidiNote) (bpm : Q)
  : option (list Z) :=
  trackData <- write_events fuel (sorted_events bpm notes) 0 [] ;;
  trackData <- writeVarInt fuel trackData 0 ;;
  Some (trackData ++ [0xFF; 0x2F; 0x00]).

(** [writeString]: the character codes. *)
Definition MThd : list Z := [77; 84; 104; 100].
Definition MTrk : list Z := [77; 84; 114; 107].

(** [DataView.setUint32] and [setUint16], big-endian. *)
Definition setUint32 (v : Z) : list Z :=
  let v := v mod 2 ^ 32 in
  [v / 2 ^ 24; (v / 2 ^ 16) mod 256; (v / 2 ^ 8) mod 256; v mod 256].

Definition setUint16 (v : Z) : list Z :=
  let v := v mod 2 ^ 16 in
  [v / 2 ^ 8; v mod 256].

(** A store into the [Uint8Array]. *)
Definition toUint8 (x : Z) : Z := x mod 256.

Definition generateMidiFile (fuel : nat) (notes : list MidiNote) (bpm : Q)
  : option (list Z) :=
  trackData <- track_data fuel notes bpm ;;
  Some (MThd ++ setUint32 6 ++ setUint16 0 ++ setUint16 1
          ++ setUint16 TICKS_PER_BEAT
          ++ MTrk ++ setUint32 (Z.of_nat (length trackData))
          ++ map toUint8 trackData).

(** The caller's default tempo. *)
Definition default_bpm : Q := 120.

(** ** Binary64 numbers and JavaScript values *)

Module JS.

(** An integer as a number (exact below 2^53). *)
Definition of_Z (z : Z) : float :=
  if z <? 0 then PrimFloat.opp (PrimFloat.of_uint63 (Uint63.of_Z (- z)))
  else PrimFloat.of_uint63 (Uint63.of_Z z).

(** [a[i]]: an index outside the array reads [undefined], which is [None]. *)
Definition rd (a : list float) (i : Z) : option float :=
  if i <? 0 then None else nth_error a (Z.to_nat i).

(** [ToNumber]: [undefined] becomes [NaN]. *)
Definition toNumber (v : option float) : float :=
  match v with
  | Some x => x
  | None => PrimFloat.nan
  end.

(** [a > b]: false as soon as an operand is [undefined] (it converts to
    [NaN]) or [NaN]. *)
Definition gt (a b : option float) : bool :=
  match a, b with
  | Some x, Some y => PrimFloat.ltb y x
  | _, _ => false
  end.

(** [a < b], likewise. *)
Definition lt (a b : option float) : bool :=
  match a, b with
  | Some x, Some y => PrimFloat.ltb x y
  | _, _ => false
  end.

(** The truth value of a number in [if (a)]: neither a zero nor [NaN]. *)
Definition truthy (a : float) : bool :=
  PrimFloat.eqb a a && negb (PrimFloat.eqb a 0%float).

(** [Math.round]: the nearest integer, a tie going up; numbers that are not
    finite, and those from 2^52 on, which are integers, are returned as
    they are.  [nearest] is the integer nearest to [ax] (below 2^52 the
    sum with 2^52 has no fraction bit left), [fl] its floor. *)
Definition Math_round (x : float) : float :=
  let ax := PrimFloat.abs x in
  if negb (PrimFloat.ltb ax 0x1p52%float) then x
  else
    let nearest := ((ax + 0x1p52) - 0x1p52)%float in
    let fl := if PrimFloat.ltb ax nearest then (nearest - 1)%float else nearest in
    let frac := (ax - fl)%float in
    if PrimFloat.ltb x 0%float
    then PrimFloat.opp (if PrimFloat.ltb 0.5%float frac then (fl + 1)%float else fl)
    else if PrimFloat.leb 0.5%float frac then (fl + 1)%float else fl.

(** [a >= b], likewise. *)
Definition ge (a b : option float) : bool :=
  match a, b with
  | Some x, Some y => PrimFloat.leb y x
  | _, _ => false
  end.

(** A number as an integer, when it is one from -2^52 to 2^52; in that
    range the difference of two integers is exact, which the track loop
    relies on.  [None] for a fraction, a number outside the range, an
    infinity and [NaN]; [-0] is 0. *)
Definition integer (x : float) : option Z :=
  match Prim2SF x with
  | S754_zero _ => Some 0
  | S754_finite s m e =>
      let n := if 0 <=? e then Z.shiftl (Zpos m) e else Z.shiftr (Zpos m) (- e) in
      let whole := (0 <=? e) || (Z.shiftl n (- e) =? Zpos m) in
      if whole && (n <=? 2 ^ 52) then Some (if s then - n else n) else None
  | _ => None
  end.

(** [TypedArray.prototype.slice(start, end)] *)
Definition slice {A : Type} (buf : list A) (start final : Z) : list A :=
  let len := Z.of_nat (length buf) in
  let k := if start <? 0 then Z.max (len + start) 0 else Z.min start len in
  let e := if final <? 0 then Z.max (len + final) 0 else Z.min final len in
  firstn (Z.to_nat (e - k)) (skipn (Z.to_nat k) buf).

End JS.

(** ** [generateMidiFile] with its times in binary64

    The tick of an event is [Math.round] of a binary64 quotient, and the
    rounding of the quotient can carry it across a half: where a statement
    depends on the value of a tick, the encoder is taken with the times and
    the tempo as binary64 numbers.  From the sort on the code works on the
    ticks, which are integers: that part is shared with the embedding
    above. *)

(** Lines 119-138, from the events: the sort, the track loop, [writeVar(0)]
    and the end-of-track bytes. *)
Definition events_track_data (fuel : nat) (events : list MidiEvent)
  : option (list Z) :=
  trackData <- write_events fuel (sort_by ev_time events) 0 [] ;;
  trackData <- writeVarInt fuel trackData 0 ;;
  Some (trackData ++ [0xFF; 0x2F; 0x00]).

(** Lines 119-161, from the events: the bytes of the file. *)
Definition events_file (fuel : nat) (events : list MidiEvent)
  : option (list Z) :=
  trackData <- events_track_data fuel events ;;
  Some (MThd ++ setUint32 6 ++ setUint16 0 ++ setUint16 1
          ++ setUint16 TICKS_PER_BEAT
          ++ MTrk ++ setUint32 (Z.of_nat (length trackData))
          ++ map toUint8 trackData).

Module Binary64.

(** [MidiNote] of types.ts, the times as the numbers they are. *)
Record MidiNote : Type := mkMidiNote {
  note : Z;
  velocity : Z;
  startTime : float;
  duration : float
}.

Definition secondsPerTick (bpm : float) : float :=
  ((60 / bpm) / JS.of_Z TICKS_PER_BEAT)%float.

Definition startTick (bpm : float) (n : MidiNote) : float :=
  JS.Math_round (startTime n / secondsPerTick bpm)%float.

Definition endTick (bpm : float) (n : MidiNote) : float :=
  JS.Math_round ((startTime n + duration n) / secondsPerTick bpm)%float.

(** The two [events.push] of one note.  [None]: a tick is not an integer
    from -2^52 to 2^52 (it is [NaN], infinite or larger), which the
    embedding of the track loop on integers does not cover. *)
Definition note_events (bpm : float) (n : MidiNote) : option (list MidiEvent) :=
  start <- JS.integer (startTick bpm n) ;;
  stop <- JS.integer (endTick bpm n) ;;
  Some [ mkMidiEvent noteOn (note n) (velocity n) start;
         mkMidiEvent noteOff (note n) 0 stop ].

(** [notes.forEach(n => ...)] *)
Fixpoint note_list_events (bpm : float) (notes : list MidiNote)
  : option (list MidiEvent) :=
  match notes with
  | [] => Some []
  | n :: rest =>
      pushed <- note_events bpm n ;;
      later <- note_list_events bpm rest ;;
      Some (pushed ++ later)
  end.

(** The bytes of the blob.  [None]: a call of [writeVar] does not return, or
    a tick is outside the integers covered. *)
Definition generateMidiFile (fuel : nat) (notes : list MidiNote) (bpm : float)
  : option (list Z) :=
  events <- note_list_events bpm notes ;;
  events_file fuel events.

(** The caller's default tempo. *)
Definition default_bpm : float := 120%float.

End Binary64.

(** ** [getPitch] (audioService.ts, lines 33-76) *)

(** [for (let i = 0; i < size; i++) { rms += buf[i] * buf[i]; }] *)
Definition sum_squares (buf : list float) : float :=
  fold_left (fun rms val => (rms + val * val)%float) buf 0%float.

Definition frame_rms (buf : list float) : float :=
  PrimFloat.sqrt (sum_squares buf / JS.of_Z (Z.of_nat (length buf)))%float.

Definition thres : float := 0.2%float.

(** A [for] loop of [n] rounds from [i] that breaks at the first index where
    [hit] holds: the index it broke at, if any. *)
Fixpoint find_from (n : nat) (i : Z) (hit : Z -> bool) : option Z :=
  match n with
  | O => None
  | S n' => if hit i then Some i else find_from n' (i + 1) hit
  end.

(** The bound [i < size / 2] of both trimming loops: for an integer [i] it is
    [i < half_up size]. *)
Definition half_up (size : Z) : Z := (size + 1) / 2.

Definition quiet (buf : list float) (i : Z) : bool :=
  JS.lt (Some (PrimFloat.abs (JS.toNumber (JS.rd buf i)))) (Some thres).

(** [for (let i = 0; i < size / 2; i++)
      if (Math.abs(buf[i]) < thres) { r1 = i; break; }] *)
Definition trim_r1 (buf : list float) : Z :=
  let size := Z.of_nat (length buf) in
  match find_from (Z.to_nat (half_up size)) 0 (quiet buf) with
  | Some i => i
  | None => 0
  end.

(** [for (let i = 1; i < size / 2; i++)
      if (Math.abs(buf[size - i]) < thres) { r2 = size - i; break; }] *)
Definition trim_r2 (buf : list float) : Z :=
  let size := Z.of_nat (length buf) in
  match find_from (Z.to_nat (half_up size - 1)) 1
          (fun i => quiet buf (size - i)) with
  | Some i => size - i
  | None => size - 1
  end.

Definition bufSlice (buf : list float) : list float :=
  JS.slice buf (trim_r1 buf) (trim_r2 buf).

(** [for (let j = 0; j < cSize - i; j++)
      c[i] = c[i] + bufSlice[j] * bufSlice[j + i];] *)
Definition correlation_at (s : list float) (i : nat) : float :=
  fold_left
    (fun ci j =>
       (ci + JS.toNumber (JS.rd s (Z.of_nat j))
             * JS.toNumber (JS.rd s (Z.of_nat (j + i))))%float)
    (seq 0 (length s - i)) 0%float.

Definition autocorrelate (s : list float) : list float :=
  map (correlation_at s) (seq 0 (length s)).

(** [let d = 0; while (c[d] > c[d + 1]) d++;] *)
Fixpoint skip_descending (fuel : nat) (c : list float) (d : Z) : option Z :=
  match fuel with
  | O => None
  | S fuel' =>
      if JS.gt (JS.rd c d) (JS.rd c (d + 1))
      then skip_descending fuel' c (d + 1)
      else Some d
  end.

(** [for (let i = d; i < cSize; i++)
      if (c[i] > maxval) { maxval = c[i]; maxpos = i; }] *)
Fixpoint find_max (n : nat) (i : Z) (c : list float) (maxval : float)
    (maxpos : Z) : float * Z :=
  match n with
  | O => (maxval, maxpos)
  | S n' =>
      if JS.gt (JS.rd c i) (Some maxval)
      then find_max n' (i + 1) c (JS.toNumber (JS.rd c i)) i
      else find_max n' (i + 1) c maxval maxpos
  end.

Definition peak_lag (c : list float) (d : Z) : Z :=
  snd (find_max (Z.to_nat (Z.of_nat (length c) - d)) d c (-1)%float (-1)).

(** The parabolic refinement: lines 68-73. *)
Definition refine (c : list float) (maxpos : Z) : float :=
  let T0 := JS.of_Z maxpos in
  let x1 := JS.toNumber (JS.rd c (maxpos - 1)) in
  let x2 := JS.toNumber (JS.rd c maxpos) in
  let x3 := JS.toNumber (JS.rd c (maxpos + 1)) in
  let a := ((x1 + x3 - 2 * x2) / 2)%float in
  let b := ((x3 - x1) / 2)%float in
  if JS.truthy a then (T0 - b / (2 * a))%float else T0.

Definition no_pitch : float := (-1)%float.

Definition getPitch (fuel : nat) (buf : list float) (sampleRate : float)
  : option float :=
  if PrimFloat.ltb (frame_rms buf) 0.01%float then Some no_pitch
  else
    let c := autocorrelate (bufSlice buf) in
    d <- skip_descending fuel c 0 ;;
    Some (sampleRate / refine c (peak_lag c d))%float.

(** ** The tap tempo tracker (Tools.tsx, lines 23-68 and 185)

    Timestamps are the integer milliseconds of [Date.now()]; their differences
    and the sum of these are integers far below 2^53, where the arithmetic of
    numbers is exact: they stay in [Z] and become numbers at the division. *)

Record TapState : Type := mkTapState {
  taps : list Z;
  bpm : float
}.

(** [useState([])] and [useState(0)] *)
Definition initial_taps : TapState := mkTapState [] 0%float.

(** [for (let i = 1; i < newTaps.length; i++)
      intervals.push(newTaps[i] - newTaps[i - 1]);] *)
Fixpoint tap_intervals (newTaps : list Z) : list Z :=
  match newTaps with
  | a :: (b :: _) as rest => (b - a) :: tap_intervals rest
  | _ => []
  end.

(** [intervals.reduce((a, b) => a + b, 0) / intervals.length] *)
Definition avgInterval (intervals : list Z) : float :=
  PrimFloat.div (JS.of_Z (fold_left Z.add intervals 0))
                (JS.of_Z (Z.of_nat (length intervals))).

Definition handleTap (now : Z) (st : TapState) : TapState :=
  let newTaps := filter (fun t => now - t <? 3000) (taps st ++ [now]) in
  if (1 <? length newTaps)%nat then
    let newBpm := JS.Math_round (60000 / avgInterval (tap_intervals newTaps))%float in
    mkTapState newTaps newBpm
  else mkTapState newTaps (bpm st).

Definition resetTap (st : TapState) : TapState := mkTapState [] 0%float.

(** What the pad shows, [{bpm > 0 ? bpm : '--'}]: [None] is the ['--'] of
    insufficient data. *)
Definition shown_bpm (st : TapState) : option float :=
  if PrimFloat.ltb 0%float (bpm st) then Some (bpm st) else None.

(** ** The note conversions (Tools.tsx, lines 5-20 and 91-121)

    [Math.log] is [ln], [Math.pow(2, x)] is [Rpower 2 x], [Math.floor] is
    [Int_part]. *)

Module NoteMapper.

Import Stdlib.Strings.String.
Local Open Scope R_scope.

Definition NOTES : list String.string :=
  ["C"; "C#"; "D"; "D#"; "E"; "F"; "F#"; "G"; "G#"; "A"; "A#"; "B"]%string.

Definition OCTAVES : list Z := [0; 1; 2; 3; 4; 5; 6; 7; 8]%Z.

(** The name selected at the start, [useState('A')]. *)
Definition initial_note : String.string := "A"%string.

Definition Math_floor (x : R) : Z := Int_part x.

Definition Math_round (x : R) : Z := Int_part (x + / 2).

Definition noteFromPitch (frequency : R) : Z :=
  let noteNum := 12 * (ln (frequency / 440) / ln 2) in
  (Math_round noteNum + 69)%Z.

Definition frequencyFromNoteNumber (note : Z) : R :=
  440 * Rpower 2 ((IZR note - 69) / 12).

Definition centsOffFromPitch (frequency : R) (note : Z) : Z :=
  Math_floor (1200 * ln (frequency / frequencyFromNoteNumber note) / ln 2).

(** [NOTES.indexOf(selectedNote)]: [None] is the [-1] of a name not found. *)
Fixpoint indexOf (l : list String.string) (x : String.string) : option Z :=
  match l with
  | [] => None
  | y :: l' =>
      if String.eqb y x then Some 0%Z
      else match indexOf l' x with
           | Some i => Some (i + 1)%Z
           | None => None
           end
  end.

(** [a[i]] on an array of strings; [None] is [undefined]. *)
Definition rd_name (a : list String.string) (i : Z) : option String.string :=
  if (i <? 0)%Z then None else nth_error a (Z.to_nat i).

(** The Note -> Hz effect, lines 111-120: the number whose [toFixed(2)] is
    shown, [None] for the ['Invalid'] of an unknown name.  The octave is the
    parsed value of the dropdown, whose options are the numbers of
    [OCTAVES]: the ['Invalid'] of a text that does not parse is not
    modelled. *)
Definition noteToFrequency (selectedNote : String.string) (oct : Z) : option R :=
  match indexOf NOTES selectedNote with
  | Some noteIdx =>
      let midi := ((oct + 1) * 12 + noteIdx)%Z in
      Some (440 * Rpower 2 ((IZR midi - 69) / 12))
  | None => None
  end.

Record NoteLabel : Type := mkNoteLabel {
  noteName : option String.string;
  oct : Z;
  cents : Z
}.

(** The Hz -> Note effect, lines 94-104: [None] is the ['...'] shown for a
    frequency that is not positive.  [%] is the remainder with the sign of
    the dividend. *)
Definition frequencyToNote (hz : R) : option NoteLabel :=
  if Rlt_dec 0 hz then
    let noteNum := noteFromPitch hz in
    Some (mkNoteLabel (rd_name NOTES (Z.rem noteNum 12))
                      (Math_floor (IZR noteNum / 12) - 1)
                      (centsOffFromPitch hz noteNum))
  else None.

End NoteMapper.

(** * Definitions used by the statements *)

(** ** The MIDI encoder *)

(** The reader of a variable-length quantity, as the Standard MIDI File format
    defines it: seven bits a byte, the most significant group first, bit 7
    set on every byte but the last.  It returns the value and the bytes that
    follow it. *)
Fixpoint vlq_decode (bs : list Z) (acc : Z) : option (Z * list Z) :=
  match bs with
  | [] => None
  | b :: rest =>
      let acc := acc * 128 + Z.land b 0x7f in
      if negb (Z.land b 0x80 =? 0) then vlq_decode rest acc else Some (acc, rest)
  end.

(** The bytes [writeVarInt] pushes for a value below 2^28, in closed form. *)
Definition vlq_groups (value : Z) : list Z :=
  if value <? 2 ^ 7 then [value]
  else if value <? 2 ^ 14 then [128 + (value / 128) mod 128; value mod 128]
  else if value <? 2 ^ 21 then
    [128 + (value / 128 / 128) mod 128; 128 + (value / 128) mod 128; value mod 128]
  else
    [128 + (value / 128 / 128 / 128) mod 128; 128 + (value / 128 / 128) mod 128;
     128 + (value / 128) mod 128; value mod 128].

Definition is_byte (b : Z) : Prop := 0 <= b < 256.

(** The zero delta-time and the end-of-track meta-event. *)
Definition end_of_track : list Z := [0; 0xFF; 0x2F; 0x00].

(** The bytes of one event in the track: a delta-time, then its message. *)
Definition event_chunk (event : MidiEvent) (chunk : list Z) : Prop :=
  exists delta_bytes, chunk = delta_bytes ++ event_message event.

(** [before x y l]: an occurrence of [x] in [l] is followed, later, by [y]. *)
Inductive before {A : Type} (x y : A) : list A -> Prop :=
| before_here : forall l, In y l -> before x y (x :: l)
| before_later : forall z l, before x y l -> before x y (z :: l).

(** The elements of an array with their indices, from [i] on. *)
Fixpoint tag_from {A : Type} (i : nat) (l : list A) : list (nat * A) :=
  match l with
  | [] => []
  | x :: l' => (i, x) :: tag_from (S i) l'
  end.

Definition tagged_time (p : nat * MidiEvent) : Z := ev_time (snd p).

(** The sorted events, each with the index it had in [events] before the
    sort: note [k] pushed its note-on at [2 * k] and its note-off at
    [2 * k + 1]. *)
Definition emission_order (bpm : Q) (notes : list MidiNote)
  : list (nat * MidiEvent) :=
  sort_by tagged_time (tag_from 0 (note_list_events bpm notes)).

(** Keys that never decrease, starting at or above [lo]. *)
Fixpoint ascending {A : Type} (key : A -> Z) (lo : Z) (l : list A) : Prop :=
  match l with
  | [] => True
  | x :: l' => lo <= key x /\ ascending key (key x) l'
  end.

(** A note that ends before it starts, and a note of no length. *)
Definition backward_note : MidiNote := mkMidiNote 60 100 1 (- (1 # 2)).
Definition instant_note : MidiNote := mkMidiNote 60 100 0 0.

(** A note outside the documented ranges: pitch 200, velocity 300, and a
    duration of -0.5 s. *)
Definition invalid_note : Binary64.MidiNote :=
  Binary64.mkMidiNote 200 300 1%float (-0.5)%float.

(** A note whose start, 372827.02 s, gives at 90 BPM a quotient of exactly
    268435455.5 in binary64, where the exact quotient is just below it. *)
Definition boundary_note : Binary64.MidiNote :=
  Binary64.mkMidiNote 60 100 0x1.6c16c160b60b5p+18%float 1%float.

(** ** The pitch estimator *)

(** What the first trimming loop leaves in [r1]: the first index below
    [size / 2] whose sample is under the threshold, and 0 when there is
    none. *)
Definition first_quiet (buf : list float) (r1 : Z) : Prop :=
  let size := Z.of_nat (length buf) in
  (0 <= r1 /\ 2 * r1 < size /\ quiet buf r1 = true
   /\ forall i, 0 <= i < r1 -> quiet buf i = false)
  \/ (r1 = 0 /\ forall i, 0 <= i -> 2 * i < size -> quiet buf i = false).

(** What the second trimming loop leaves in [r2]: [size - i] for the first
    [i] from 1 below [size / 2] whose sample [buf[size - i]] is under the
    threshold, and [size - 1] when there is none. *)
Definition last_quiet (buf : list float) (r2 : Z) : Prop :=
  let size := Z.of_nat (length buf) in
  (exists i, 1 <= i /\ 2 * i < size /\ r2 = size - i
             /\ quiet buf (size - i) = true
             /\ forall j, 1 <= j < i -> quiet buf (size - j) = false)
  \/ (r2 = size - 1
      /\ forall i, 1 <= i -> 2 * i < size -> quiet buf (size - i) = false).

(** The trimming in the words of the specification: the region from the first
    to the last sample whose absolute value exceeds the threshold (the whole
    frame when no sample does). *)
Definition loud (buf : list float) (i : Z) : bool :=
  JS.gt (Some (PrimFloat.abs (JS.toNumber (JS.rd buf i)))) (Some thres).

Definition spec_trim (buf : list float) : list float :=
  let size := Z.of_nat (length buf) in
  match find_from (length buf) 0 (loud buf),
        find_from (length buf) 1 (fun i => loud buf (size - i)) with
  | Some first, Some i => JS.slice buf first (size - i + 1)
  | _, _ => buf
  end.

(** A frame that starts and ends on a silent sample around a loud tone, and a
    frame whose only loud samples are its first and its last. *)
Definition frame_silent_ends : list float := [0; 0.5; 0.5; -0.5; 0.5; 0]%float.
Definition frame_silent_middle : list float := [1; 0; 0; 0; 0; 1]%float.

(** ** The tap tempo tracker *)

(** The earlier timestamps that a tap at [now] keeps. *)
Definition kept_taps (now : Z) (st : TapState) : list Z :=
  filter (fun t => now - t <? 3000) (taps st).

(** * More of the code: definitions

    The callers and the helpers around the functions above, and the readers
    against which the encoder is checked. *)

(** ** The MIDI encoder, read back *)

(** The delta-times the track loop hands to [writeVar]. *)
Fixpoint delta_times (currentTime : Z) (events : list MidiEvent) : list Z :=
  match events with
  | [] => []
  | event :: rest =>
      (ev_time event - currentTime) :: delta_times (ev_time event) rest
  end.

(** The track bytes of a list of events, from the tick [currentTime] on, the
    delta-times in closed form. *)
Fixpoint event_bytes (currentTime : Z) (events : list MidiEvent) : list Z :=
  match events with
  | [] => []
  | event :: rest =>
      vlq_groups (ev_time event - currentTime) ++ event_message event
        ++ event_bytes (ev_time event) rest
  end.

(** A reader of the track chunk for what the encoder writes, as the Standard
    MIDI File format has it: a delta-time, then a status byte 0x90 or 0x80
    with two data bytes, which are below 0x80, until the end-of-track
    meta-event FF 2F 00, which must come last.  Anything else (running
    status, the other events, a data byte with bit 7 set) is not read.  It
    returns the events with their absolute ticks. *)
Fixpoint read_track (fuel : nat) (bytes : list Z) (currentTime : Z)
  : option (list MidiEvent) :=
  match fuel with
  | O => None
  | S fuel' =>
      match vlq_decode bytes 0 with
      | Some (delta, status :: d1 :: d2 :: rest) =>
          let time := currentTime + delta in
          let data := (0 <=? d1) && (d1 <? 0x80) && (0 <=? d2) && (d2 <? 0x80) in
          if (status =? 0x90) && data then
            option_map (cons (mkMidiEvent noteOn d1 d2 time))
                       (read_track fuel' rest time)
          else if (status =? 0x80) && data then
            option_map (cons (mkMidiEvent noteOff d1 d2 time))
                       (read_track fuel' rest time)
          else if (status =? 0xFF) && (d1 =? 0x2F) && (d2 =? 0x00) then
            match rest with
            | [] => Some []
            | _ => None
            end
          else None
      | _ => None
      end
  end.

(** [DataView.getUint32] and [getUint16], big-endian. *)
Definition getUint32 (b0 b1 b2 b3 : Z) : Z :=
  ((b0 * 256 + b1) * 256 + b2) * 256 + b3.

Definition getUint16 (b0 b1 : Z) : Z := b0 * 256 + b1.

(** What a file holds: the three fields of the header and the events. *)
Record MidiFile : Type := mkMidiFile {
  mf_format : Z;
  mf_tracks : Z;
  mf_division : Z;
  mf_events : list MidiEvent
}.

Definition bytes_eqb (a b : list Z) : bool :=
  (length a =? length b)%nat && forallb (fun p => fst p =? snd p) (combine a b).

(** A reader of the file: the MThd chunk of length 6, then one MTrk chunk
    whose length field is the number of bytes that are left. *)
Definition read_file (bytes : list Z) : option MidiFile :=
  match bytes with
  | m0 :: m1 :: m2 :: m3 :: l0 :: l1 :: l2 :: l3
      :: f0 :: f1 :: n0 :: n1 :: d0 :: d1
      :: t0 :: t1 :: t2 :: t3 :: s0 :: s1 :: s2 :: s3 :: track =>
      if bytes_eqb [m0; m1; m2; m3] MThd
         && (getUint32 l0 l1 l2 l3 =? 6)
         && bytes_eqb [t0; t1; t2; t3] MTrk
         && (getUint32 s0 s1 s2 s3 =? Z.of_nat (length track))
      then
        option_map
          (mkMidiFile (getUint16 f0 f1) (getUint16 n0 n1) (getUint16 d0 d1))
          (read_track (S (length track)) track 0)
      else None
  | _ => None
  end.

(** A MIDI data byte: seven bits. *)
Definition data_byte (b : Z) : Prop := 0 <= b < 128.

(** An event the reader gives back as it is: pitch and velocity are data
    bytes, and the velocity of a note-off is 0. *)
Definition data_event (e : MidiEvent) : Prop :=
  data_byte (ev_note e) /\ data_byte (ev_velocity e)
  /\ (ev_type e = noteOff -> ev_velocity e = 0).

(** A note whose pitch and velocity are data bytes. *)
Definition data_note (n : Binary64.MidiNote) : Prop :=
  data_byte (Binary64.note n) /\ data_byte (Binary64.velocity n).

Definition tick_le (a b : MidiEvent) : Prop := ev_time a <= ev_time b.

(** A note that starts after more than 83 hours. *)
Definition far_note : MidiNote := mkMidiNote 60 100 300000 1.

(** Two notes, the later one first. *)
Definition two_notes : list Binary64.MidiNote :=
  [Binary64.mkMidiNote 64 90 0.5%float 0.5%float;
   Binary64.mkMidiNote 60 100 0%float 0.5%float].

(** The events they push at 120 BPM. *)
Definition two_notes_pushed : list MidiEvent :=
  [mkMidiEvent noteOn 64 90 480; mkMidiEvent noteOff 64 0 960;
   mkMidiEvent noteOn 60 100 0; mkMidiEvent noteOff 60 0 480].

(** ** [downloadMidi] (VoiceToMidi.tsx, lines 71-81) *)

Inductive Mode : Type := melody | rhythm.

(** [MidiSketch] of types.ts; [bpm] is optional. *)
Record MidiSketch : Type := mkMidiSketch {
  ms_id : String.string;
  ms_timestamp : Z;
  ms_durationSec : float;
  ms_audioBlob : list Z;
  ms_bpm : option float;
  ms_midiNotes : list Binary64.MidiNote;
  ms_mode : Mode
}.

(** [sketch.bpm || 120]: an absent tempo, a zero and [NaN] are falsy. *)
Definition bpm_or_default (bpm : option float) : float :=
  match bpm with
  | Some b => if JS.truthy b then b else 120%float
  | None => 120%float
  end.

(** The bytes of the blob [downloadMidi] hands to the browser. *)
Definition downloadMidi (fuel : nat) (sketch : MidiSketch) : option (list Z) :=
  Binary64.generateMidiFile fuel (ms_midiNotes sketch)
    (bpm_or_default (ms_bpm sketch)).

Definition sketch_tempo_zero : MidiSketch :=
  mkMidiSketch String.EmptyString 0 2.5%float [] (Some 0%float) two_notes melody.

(** ** Runs of taps *)

(** The taps of a list of times, in the order they are made. *)
Definition tap_all (times : list Z) (st : TapState) : TapState :=
  fold_left (fun s t => handleTap t s) times st.

(** ** The note conversions *)

(** The number of semitones from A4, before [noteFromPitch] rounds it. *)
Definition semitones (frequency : R) : R :=
  (12 * (ln (frequency / 440) / ln 2))%R.

(** ** The recorder (Recorder.tsx) *)

Module Recorder.

Import Stdlib.Strings.String Stdlib.Strings.Ascii.

(** [Number.prototype.toString] on a natural number: its decimal digits. *)
Definition toString (n : nat) : string :=
  DecimalString.NilEmpty.string_of_uint (Nat.to_uint n).

Fixpoint zeros (n : nat) : string :=
  match n with
  | O => EmptyString
  | S n' => String "0"%char (zeros n')
  end.

(** [s.padStart(targetLength, '0')] *)
Definition padStart (targetLength : nat) (s : string) : string :=
  append (zeros (targetLength - String.length s)) s.

(** [formatTime] (lines 88-92), on the whole seconds the timer counts. *)
Definition formatTime (sec : nat) : string :=
  let m := (sec / 60)%nat in
  let s := (sec mod 60)%nat in
  append (toString m) (String ":"%char (padStart 2 (toString s))).

(** The number that two decimal digits stand for. *)
Definition seconds_of (digits : string) : option nat :=
  option_map Nat.of_uint (DecimalString.NilEmpty.uint_of_string digits).

(** [Sketch] of types.ts *)
Record Sketch : Type := mkSketch {
  s_id : string;
  s_timestamp : Z;
  s_durationSec : nat;
  s_audioBlob : list Z;
  s_bpm : option Q;
  s_key : option string
}.

(** [setSketches(prev => [newSketch, ...prev])] (line 45) *)
Definition addSketch (newSketch : Sketch) (prev : list Sketch) : list Sketch :=
  newSketch :: prev.

(** [deleteSketch] (lines 84-86):
    [setSketches(prev => prev.filter(s => s.id !== id))] *)
Definition deleteSketch (id : string) (prev : list Sketch) : list Sketch :=
  filter (fun s => negb (String.eqb (s_id s) id)) prev.

Definition first_sketch : Sketch :=
  mkSketch "1700000000000" 1700000000000 12 [] (Some 120%Q) None.
Definition second_sketch : Sketch :=
  mkSketch "1700000060000" 1700000060000 75 [] None None.

End Recorder.

(** * The embedding at work

    The examples of the specification, run on the embedding. *)

Example Math_round_samples :
  map JS.Math_round
    [2.5; -2.5; 0.49999999999999994; 119.5; 120.4; PrimFloat.infinity]%float
  = [3; -2; 0; 120; 120; PrimFloat.infinity]%float.
Proof. vm_compute. reflexivity. Qed.

Example tap_average_120 :
  handleTap 1500 (handleTap 1000 (handleTap 500 (handleTap 0 initial_taps)))
  = mkTapState [0; 500; 1000; 1500] 120%float.
Proof. vm_compute. reflexivity. Qed.

Example one_note_file :
  generateMidiFile 4 [mkMidiNote 60 100 0 (1 # 2)] 120
  = Some (MThd ++ [0; 0; 0; 6; 0; 0; 0; 1; 1; 224] ++ MTrk ++ [0; 0; 0; 13]
            ++ [0; 0x90; 60; 100] ++ [0x83; 0x60; 0x80; 60; 0]
            ++ [0x00; 0xFF; 0x2F; 0x00])
  /\ vlq_decode [0x83; 0x60; 0x80; 60; 0] 0 = Some (480, [0x80; 60; 0]).
Proof. split; vm_compute; reflexivity. Qed.

(** Ticks in binary64: a quotient that is exactly 0.5 where the exact one is
    below it, and the quotient of [boundary_note], exactly 268435455.5. *)
Example ticks_in_binary64 :
  Binary64.startTick 120
    (Binary64.mkMidiNote 60 100 0.0005208333333333333%float 1%float) = 1%float
  /\ Binary64.note_list_events 90 [boundary_note]
     = Some [mkMidiEvent noteOn 60 100 (2 ^ 28);
             mkMidiEvent noteOff 60 0 (2 ^ 28 + 720)].
Proof. split; vm_compute; reflexivity. Qed.

Example empty_file_binary64 :
  Binary64.generateMidiFile 1 [] Binary64.default_bpm
  = Some (MThd ++ [0; 0; 0; 6; 0; 0; 0; 1; 1; 224] ++ MTrk ++ [0; 0; 0; 4]
            ++ [0x00; 0xFF; 0x2F; 0x00]).
Proof. vm_compute. reflexivity. Qed.

Example silent_frame :
  getPitch 1 [0; 0; 0; 0]%float 44100%float = Some no_pitch.
Proof. vm_compute. reflexivity. Qed.

Example square_wave_period_4 :
  getPitch 13 [0.5; 0.5; -0.5; -0.5; 0.5; 0.5; -0.5; -0.5; 0.5; 0.5; -0.5; -0.5]%float
    44100%float
  = Some 11025%float.
Proof. vm_compute. reflexivity. Qed.

(** * Facts on the 32-bit operators *)

Ltac euclid := Z.div_mod_to_equations; lia.

Module Int32Facts.

Lemma toInt32_small x : - 2 ^ 31 <= x < 2 ^ 31 -> Int32.toInt32 x = x.
Proof. unfold Int32.toInt32. intros H. rewrite Z.mod_small; lia. Qed.

Lemma land_pow2_7 x : Z.land x 128 = 128 * ((x / 128) mod 2).
Proof.
  change 128 with (2 ^ 7).
  rewrite <- (Z.testbit_spec' x 7) by lia.
  apply Z.bits_inj'. intros n Hn.
  rewrite Z.land_spec, Z.pow2_bits_eqb by lia.
  destruct (Z.eqb_spec 7 n) as [<- | Hne].
  - rewrite andb_true_r. destruct (Z.testbit x 7); reflexivity.
  - rewrite andb_false_r. destruct (Z.testbit x 7); cbn [Z.b2z].
    + rewrite Z.mul_1_r, Z.pow2_bits_eqb by lia.
      symmetry. apply Z.eqb_neq. exact Hne.
    + rewrite Z.mul_0_r. symmetry. apply Z.bits_0.
Qed.

Lemma and_7f x : 0 <= x < 2 ^ 31 -> Int32.and x 0x7f = x mod 128.
Proof.
  intros H. unfold Int32.and. rewrite toInt32_small by lia.
  change (Int32.toInt32 127) with (Z.ones 7). rewrite Z.land_ones by lia.
  reflexivity.
Qed.

Lemma and_ff x : 0 <= x < 2 ^ 31 -> Int32.and x 0xff = x mod 256.
Proof.
  intros H. unfold Int32.and. rewrite toInt32_small by lia.
  change (Int32.toInt32 255) with (Z.ones 8). rewrite Z.land_ones by lia.
  reflexivity.
Qed.

Lemma and_80 x : 0 <= x < 2 ^ 31 -> Int32.and x 0x80 = 128 * ((x / 128) mod 2).
Proof.
  intros H. unfold Int32.and. rewrite toInt32_small by lia.
  change (Int32.toInt32 128) with 128. apply land_pow2_7.
Qed.

Lemma sar_7 x : 0 <= x < 2 ^ 31 -> Int32.sar x 7 = x / 128.
Proof.
  intros H. unfold Int32.sar. rewrite toInt32_small by lia.
  rewrite Z.shiftr_div_pow2 by lia. reflexivity.
Qed.

Lemma sar_8 x : 0 <= x < 2 ^ 31 -> Int32.sar x 8 = x / 256.
Proof.
  intros H. unfold Int32.sar. rewrite toInt32_small by lia.
  rewrite Z.shiftr_div_pow2 by lia. reflexivity.
Qed.

Lemma shl_8 x : 0 <= x < 2 ^ 23 -> Int32.shl x 8 = x * 256.
Proof.
  intros H. unfold Int32.shl. rewrite (toInt32_small x) by lia.
  rewrite Z.shiftl_mul_pow2 by lia. change (2 ^ 8) with 256.
  apply toInt32_small. lia.
Qed.

Lemma or_80 x :
  0 <= x < 2 ^ 31 -> x mod 256 = 0 -> Int32.or x 0x80 = x + 128.
Proof.
  intros H Hlow. unfold Int32.or. rewrite toInt32_small by lia.
  change (Int32.toInt32 128) with 128.
  assert (Hdis : Z.land x 128 = 0).
  { rewrite land_pow2_7. euclid. }
  rewrite <- Z.lxor_lor by exact Hdis.
  symmetry. apply Z.add_nocarry_lxor. exact Hdis.
Qed.

End Int32Facts.

Import Int32Facts.

(** * The variable-length quantity writer *)

Lemma pack_stop fuel value buffer :
  0 <= value < 128 -> writeVarInt_pack (S fuel) value buffer = Some buffer.
Proof.
  intros H. cbn [writeVarInt_pack]. rewrite sar_7 by lia.
  replace (value / 128) with 0 by euclid. reflexivity.
Qed.

Lemma pack_step fuel value buffer :
  128 <= value < 2 ^ 31 -> 0 <= buffer < 2 ^ 23 ->
  writeVarInt_pack (S fuel) value buffer
  = writeVarInt_pack fuel (value / 128) (buffer * 256 + 128 + (value / 128) mod 128).
Proof.
  intros Hv Hb. cbn [writeVarInt_pack]. rewrite sar_7 by lia.
  assert (Hq : 0 < value / 128 < 2 ^ 31) by euclid.
  destruct (Z.ltb_spec 0 (value / 128)) as [_ | Hc]; [| lia].
  rewrite shl_8 by lia. rewrite or_80 by euclid.
  rewrite and_7f by lia. reflexivity.
Qed.

Lemma emit_last fuel g data :
  0 <= g < 128 -> writeVarInt_emit (S fuel) g data = Some (data ++ [g]).
Proof.
  intros H. cbn [writeVarInt_emit]. rewrite and_80, and_ff by lia.
  replace ((g / 128) mod 2) with 0 by euclid.
  replace (g mod 256) with g by euclid. reflexivity.
Qed.

Lemma emit_more fuel rest b data :
  0 <= b < 128 -> 0 <= rest < 2 ^ 23 ->
  writeVarInt_emit (S fuel) (rest * 256 + 128 + b) data
  = writeVarInt_emit fuel rest (data ++ [128 + b]).
Proof.
  intros Hb Hr. cbn [writeVarInt_emit]. rewrite and_80, and_ff, sar_8 by lia.
  replace (((rest * 256 + 128 + b) / 128) mod 2) with 1 by euclid.
  replace ((rest * 256 + 128 + b) mod 256) with (128 + b) by euclid.
  replace ((rest * 256 + 128 + b) / 256) with rest by euclid.
  reflexivity.
Qed.

Lemma decode_more g bs acc :
  0 <= g < 128 ->
  vlq_decode ((128 + g) :: bs) acc = vlq_decode bs (acc * 128 + g).
Proof.
  intros H. cbn [vlq_decode].
  rewrite land_pow2_7. change 127 with (Z.ones 7). rewrite Z.land_ones by lia.
  replace (((128 + g) / 128) mod 2) with 1 by euclid.
  replace ((128 + g) mod 2 ^ 7) with g by euclid. reflexivity.
Qed.

Lemma decode_last g bs acc :
  0 <= g < 128 -> vlq_decode (g :: bs) acc = Some (acc * 128 + g, bs).
Proof.
  intros H. cbn [vlq_decode].
  rewrite land_pow2_7. change 127 with (Z.ones 7). rewrite Z.land_ones by lia.
  replace ((g / 128) mod 2) with 0 by euclid.
  replace (g mod 2 ^ 7) with g by euclid. reflexivity.
Qed.

Lemma writeVarInt_groups fuel data value :
  0 <= value < 2 ^ 28 ->
  writeVarInt (S (S (S (S fuel)))) data value = Some (data ++ vlq_groups value).
Proof.
  intros H. unfold writeVarInt, vlq_groups. rewrite and_7f by lia.
  destruct (Z.ltb_spec value (2 ^ 7)) as [H1 | H1].
  { rewrite pack_stop by lia. cbn [obind].
    rewrite emit_last by euclid. f_equal. f_equal. f_equal. euclid. }
  rewrite pack_step by euclid.
  destruct (Z.ltb_spec value (2 ^ 14)) as [H2 | H2].
  { rewrite pack_stop by euclid. cbn [obind].
    rewrite emit_more by euclid. rewrite emit_last by euclid.
    rewrite <- app_assoc. reflexivity. }
  rewrite pack_step by euclid.
  destruct (Z.ltb_spec value (2 ^ 21)) as [H3 | H3].
  { rewrite pack_stop by euclid. cbn [obind].
    rewrite emit_more by euclid. rewrite emit_more by euclid.
    rewrite emit_last by euclid.
    rewrite <- !app_assoc. reflexivity. }
  rewrite pack_step by euclid.
  rewrite pack_stop by euclid. cbn [obind].
  rewrite emit_more by euclid. rewrite emit_more by euclid.
  rewrite emit_more by euclid. rewrite emit_last by euclid.
  rewrite <- !app_assoc. reflexivity.
Qed.

Lemma decode_groups value rest :
  0 <= value < 2 ^ 28 ->
  vlq_decode (vlq_groups value ++ rest) 0 = Some (value, rest).
Proof.
  intros H. unfold vlq_groups.
  destruct (Z.ltb_spec value (2 ^ 7)) as [H1 | H1].
  { cbn [app]. rewrite decode_last by lia. reflexivity. }
  destruct (Z.ltb_spec value (2 ^ 14)) as [H2 | H2].
  { cbn [app]. rewrite decode_more by euclid. rewrite decode_last by euclid.
    f_equal. f_equal. euclid. }
  destruct (Z.ltb_spec value (2 ^ 21)) as [H3 | H3].
  { cbn [app]. rewrite !decode_more by euclid. rewrite decode_last by euclid.
    f_equal. f_equal. euclid. }
  cbn [app]. rewrite !decode_more by euclid. rewrite decode_last by euclid.
  f_equal. f_equal. euclid.
Qed.

(** * The stable sort *)

Section StableSortFacts.
Context {A : Type} (key : A -> Z).

Lemma insert_by_In a x l : In x (insert_by key a l) <-> x = a \/ In x l.
Proof.
  induction l as [| h t IH]; cbn [insert_by].
  - cbn. intuition.
  - destruct (key a - key h <=? 0); cbn [In]; [intuition |].
    rewrite IH. intuition.
Qed.

Lemma sort_by_In x l : In x (sort_by key l) <-> In x l.
Proof.
  induction l as [| h t IH]; cbn [sort_by]; [reflexivity |].
  rewrite insert_by_In, IH. cbn [In]. intuition.
Qed.

Lemma insert_by_length a l : length (insert_by key a l) = S (length l).
Proof.
  induction l as [| h t IH]; cbn [insert_by]; [reflexivity |].
  destruct (key a - key h <=? 0); cbn [length]; [reflexivity | now rewrite IH].
Qed.

Lemma sort_by_length l : length (sort_by key l) = length l.
Proof.
  induction l as [| h t IH]; cbn [sort_by]; [reflexivity |].
  rewrite insert_by_length, IH. reflexivity.
Qed.

(** An element already there keeps its place relative to the others. *)
Lemma insert_by_keeps a x y l :
  before x y l -> before x y (insert_by key a l).
Proof.
  induction 1 as [l Hy | z l Hb IH]; cbn [insert_by].
  - destruct (key a - key x <=? 0).
    + apply before_later, before_here, Hy.
    + apply before_here. apply insert_by_In. right. exact Hy.
  - destruct (key a - key z <=? 0).
    + apply before_later, before_later, Hb.
    + apply before_later, IH.
Qed.

(** The inserted element goes before every element whose key is not
    smaller: it came first in the array. *)
Lemma insert_by_first a y l :
  key a <= key y -> In y l -> before a y (insert_by key a l).
Proof.
  intros Hk. induction l as [| h t IH]; intros Hy; [destruct Hy |].
  cbn [insert_by]. destruct (Z.leb_spec (key a - key h) 0) as [Hle | Hgt].
  - apply before_here. exact Hy.
  - apply before_later, IH. destruct Hy as [-> | Hy]; [lia | exact Hy].
Qed.

Lemma sort_by_stable x y l :
  before x y l -> key x <= key y -> before x y (sort_by key l).
Proof.
  intros Hb Hk. induction Hb as [l Hy | z l Hb IH]; cbn [sort_by].
  - apply insert_by_first; [exact Hk | apply sort_by_In, Hy].
  - apply insert_by_keeps, IH.
Qed.

Lemma insert_by_ascending a lo l :
  lo <= key a -> ascending key lo l -> ascending key lo (insert_by key a l).
Proof.
  revert lo. induction l as [| h t IH]; intros lo Hlo Hl; cbn [insert_by].
  - cbn. auto.
  - destruct Hl as [Hh Ht].
    destruct (Z.leb_spec (key a - key h) 0) as [Hle | Hgt]; cbn [ascending].
    + repeat split; [exact Hlo | lia | exact Ht].
    + split; [exact Hh |]. apply IH; [lia | exact Ht].
Qed.

Lemma sort_by_ascending lo l :
  Forall (fun x => lo <= key x) l -> ascending key lo (sort_by key l).
Proof.
  induction 1 as [| h t Hh Ht IH]; cbn [sort_by]; [exact I |].
  apply insert_by_ascending; assumption.
Qed.

Lemma insert_by_perm a l : Permutation (insert_by key a l) (a :: l).
Proof.
  induction l as [| h t IH]; cbn [insert_by]; [reflexivity |].
  destruct (key a - key h <=? 0); [reflexivity |].
  rewrite IH. apply perm_swap.
Qed.

Lemma sort_by_perm l : Permutation (sort_by key l) l.
Proof.
  induction l as [| h t IH]; cbn [sort_by]; [reflexivity |].
  rewrite insert_by_perm. now apply perm_skip.
Qed.

Lemma before_nth (x y : A) (l : list A) :
  before x y l ->
  exists i j, (i < j)%nat /\ nth_error l i = Some x /\ nth_error l j = Some y.
Proof.
  induction 1 as [l Hy | z l Hb (i & j & Hij & Hi & Hj)].
  - apply In_nth_error in Hy. destruct Hy as [j Hj].
    exists 0%nat, (S j). repeat split; [lia | exact Hj].
  - exists (S i), (S j). repeat split; [lia | exact Hi | exact Hj].
Qed.
End StableSortFacts.

(** The sort commutes with a renaming of the elements that keeps the keys. *)
Lemma insert_by_map {A B : Type} (key : B -> Z) (f : A -> B) a l :
  insert_by key (f a) (map f l) = map f (insert_by (fun x => key (f x)) a l).
Proof.
  induction l as [| h t IH]; cbn [insert_by map]; [reflexivity |].
  destruct (key (f a) - key (f h) <=? 0); cbn [map]; [reflexivity |].
  now rewrite IH.
Qed.

Lemma sort_by_map {A B : Type} (key : B -> Z) (f : A -> B) l :
  sort_by key (map f l) = map f (sort_by (fun x => key (f x)) l).
Proof.
  induction l as [| h t IH]; cbn [sort_by map]; [reflexivity |].
  rewrite IH. apply insert_by_map.
Qed.

Lemma map_snd_tag_from {A : Type} i (l : list A) : map snd (tag_from i l) = l.
Proof.
  revert i. induction l as [| h t IH]; intros i; cbn [tag_from map];
    [reflexivity |].
  now rewrite IH.
Qed.

Lemma map_fst_tag_from {A : Type} (l : list A) : forall i,
  map fst (tag_from i l) = seq i (length l).
Proof.
  induction l as [| h t IH]; intros i; cbn [tag_from map length seq];
    [reflexivity |].
  now rewrite IH.
Qed.

Lemma note_list_events_length bpm notes :
  length (note_list_events bpm notes) = (2 * length notes)%nat.
Proof.
  induction notes as [| n notes IH]; [reflexivity |].
  change (note_list_events bpm (n :: notes))
    with (note_events bpm n ++ note_list_events bpm notes).
  rewrite length_app, IH. cbn [note_events length]. lia.
Qed.

(** The indices carried through the sort are those of the array, each once. *)
Lemma emission_order_tags bpm notes :
  Permutation (map fst (emission_order bpm notes)) (seq 0 (2 * length notes)).
Proof.
  unfold emission_order. rewrite sort_by_perm, map_fst_tag_from.
  now rewrite note_list_events_length.
Qed.

Lemma emission_order_events bpm notes :
  map snd (emission_order bpm notes) = sorted_events bpm notes.
Proof.
  unfold emission_order, sorted_events, tagged_time.
  rewrite <- (sort_by_map ev_time snd). now rewrite map_snd_tag_from.
Qed.

Lemma tagged_note_before bpm notes : forall i k n,
  nth_error notes k = Some n ->
  before (i + 2 * k, mkMidiEvent noteOn (note n) (velocity n) (startTick bpm n))%nat
         (i + 2 * k + 1, mkMidiEvent noteOff (note n) 0 (endTick bpm n))%nat
         (tag_from i (note_list_events bpm notes)).
Proof.
  induction notes as [| m notes IH]; intros i k n Hk.
  - destruct k; discriminate.
  - destruct k as [| k]; cbn [nth_error] in Hk.
    + injection Hk as ->. cbn. replace (i + 0)%nat with i by lia.
      replace (i + 1)%nat with (S i) by lia.
      apply before_here. left. reflexivity.
    + cbn [note_list_events flat_map note_events app tag_from].
      apply before_later, before_later.
      specialize (IH (S (S i)) k n Hk).
      replace (i + 2 * S k)%nat with (S (S i) + 2 * k)%nat by lia.
      exact IH.
Qed.

Lemma secondsPerTick_pos bpm : (0 < bpm)%Q -> (0 < secondsPerTick bpm)%Q.
Proof.
  intros H. unfold secondsPerTick, Qdiv.
  apply Qmult_lt_0_compat; [apply Qmult_lt_0_compat |].
  - reflexivity.
  - apply Qinv_lt_0_compat, H.
  - reflexivity.
Qed.

Lemma Math_round_le x y : (x <= y)%Q -> Math_round x <= Math_round y.
Proof.
  intros H. unfold Math_round. apply Qfloor_resp_le.
  apply Qplus_le_compat; [exact H | apply Qle_refl].
Qed.

Lemma tick_order bpm n :
  (0 < bpm)%Q -> (0 <= duration n)%Q -> startTick bpm n <= endTick bpm n.
Proof.
  intros Hb Hd. unfold startTick, endTick. apply Math_round_le.
  unfold Qdiv. apply Qmult_le_compat_r.
  - rewrite <- (Qplus_0_r (startTime n)) at 1.
    apply Qplus_le_compat; [apply Qle_refl | exact Hd].
  - apply Qlt_le_weak, Qinv_lt_0_compat, secondsPerTick_pos, Hb.
Qed.

(** The stable sort keeps the note-on of a note before its note-off. *)
Lemma emission_order_before bpm notes k n :
  (0 < bpm)%Q -> nth_error notes k = Some n -> (0 <= duration n)%Q ->
  before ((2 * k)%nat, mkMidiEvent noteOn (note n) (velocity n) (startTick bpm n))
         ((2 * k + 1)%nat, mkMidiEvent noteOff (note n) 0 (endTick bpm n))
         (emission_order bpm notes).
Proof.
  intros Hbpm Hk Hd. unfold emission_order. apply sort_by_stable.
  - exact (tagged_note_before bpm notes 0 k n Hk).
  - unfold tagged_time. cbn [snd ev_time]. apply tick_order; assumption.
Qed.

(** * The track writer *)

(** Both embeddings of the encoder run the same code from the events on. *)
Lemma generateMidiFile_events fuel notes bpm :
  generateMidiFile fuel notes bpm
  = events_file fuel (note_list_events bpm notes).
Proof. reflexivity. Qed.

Lemma emit_appends fuel : forall buffer data out,
  writeVarInt_emit fuel buffer data = Some out -> exists bs, out = data ++ bs.
Proof.
  induction fuel as [| fuel IH]; intros buffer data out H; [discriminate |].
  cbn [writeVarInt_emit] in H.
  destruct (negb (Int32.and buffer 128 =? 0)).
  - apply IH in H. destruct H as [bs ->].
    eexists. rewrite <- app_assoc. reflexivity.
  - injection H as <-. eexists. reflexivity.
Qed.

Lemma writeVarInt_appends fuel data value out :
  writeVarInt fuel data value = Some out -> exists bs, out = data ++ bs.
Proof.
  unfold writeVarInt.
  destruct (writeVarInt_pack fuel value (Int32.and value 127)) as [b |];
    cbn [obind]; [apply emit_appends | discriminate].
Qed.

Lemma write_events_chunks fuel events : forall currentTime trackData out,
  write_events fuel events currentTime trackData = Some out ->
  exists chunks,
    out = trackData ++ concat chunks /\ Forall2 event_chunk events chunks.
Proof.
  induction events as [| e rest IH]; intros cur data out H; cbn [write_events] in H.
  - injection H as <-. exists []. cbn. rewrite app_nil_r. split; constructor.
  - destruct (writeVarInt fuel data (ev_time e - cur)) as [td |] eqn:Hw;
      cbn [obind] in H; [| discriminate].
    apply writeVarInt_appends in Hw. destruct Hw as [bs ->].
    apply IH in H. destruct H as (chunks & -> & Hall).
    exists ((bs ++ event_message e) :: chunks). split.
    + cbn [concat]. now rewrite <- !app_assoc.
    + constructor; [exists bs; reflexivity | exact Hall].
Qed.

Lemma write_events_returns fuel events : forall currentTime trackData,
  0 <= currentTime ->
  ascending ev_time currentTime events ->
  Forall (fun e => ev_time e < 2 ^ 28) events ->
  exists out, write_events (S (S (S (S fuel)))) events currentTime trackData = Some out.
Proof.
  induction events as [| e rest IH]; intros cur data Hcur Hasc Hall.
  - eexists. reflexivity.
  - destruct Hasc as [Hlo Hasc]. inversion Hall as [| ? ? He Hrest]; subst.
    cbn [write_events]. rewrite writeVarInt_groups by lia. cbn [obind].
    apply IH; [lia | exact Hasc | exact Hrest].
Qed.

Lemma writeVarInt_zero fuel data out :
  writeVarInt fuel data 0 = Some out -> out = data ++ [0].
Proof.
  destruct fuel as [| fuel]; [discriminate |].
  unfold writeVarInt. cbn. congruence.
Qed.

Lemma track_data_chunks fuel notes bpm trackData :
  track_data fuel notes bpm = Some trackData ->
  exists chunks,
    trackData = concat chunks ++ end_of_track
    /\ Forall2 event_chunk (sorted_events bpm notes) chunks.
Proof.
  unfold track_data. intros H.
  destruct (write_events fuel (sorted_events bpm notes) 0 []) as [td |] eqn:Hw;
    cbn [obind] in H; [| discriminate].
  destruct (writeVarInt fuel td 0) as [td' |] eqn:Hz; cbn [obind] in H;
    [| discriminate].
  injection H as <-. apply writeVarInt_zero in Hz. subst td'.
  apply write_events_chunks in Hw. destruct Hw as (chunks & -> & Hall).
  exists chunks. split; [| exact Hall].
  cbn [app]. rewrite <- app_assoc. reflexivity.
Qed.

Lemma before_map {A B : Type} (f : A -> B) x y l :
  before x y l -> before (f x) (f y) (map f l).
Proof.
  induction 1 as [l Hy | z l Hb IH]; cbn [map].
  - apply before_here, in_map, Hy.
  - apply before_later, IH.
Qed.

(** The message of an event of the list is in the bytes of the chunks. *)
Lemma chunks_In events chunks y :
  Forall2 event_chunk events chunks -> In y events ->
  exists pre post, concat chunks = pre ++ event_message y ++ post.
Proof.
  induction 1 as [| e c events chunks Hc _ IH]; intros Hy; [destruct Hy |].
  destruct Hc as [d ->]. destruct Hy as [-> | Hy].
  - exists d, (concat chunks). cbn [concat]. now rewrite <- app_assoc.
  - destruct (IH Hy) as (pre & post & Hcs).
    exists ((d ++ event_message e) ++ pre), post. cbn [concat].
    rewrite Hcs. now rewrite <- !app_assoc.
Qed.

(** The messages of two events come in the bytes in the order of the events. *)
Lemma chunks_before events chunks x y :
  before x y events -> Forall2 event_chunk events chunks ->
  exists pre mid post,
    concat chunks = pre ++ event_message x ++ mid ++ event_message y ++ post.
Proof.
  intros Hb. revert chunks.
  induction Hb as [l Hy | z l Hb IH]; intros chunks Hall;
    inversion Hall as [| ? c ? cs [d Hd] Hrest]; subst.
  - destruct (chunks_In l cs y Hrest Hy) as (pre & post & Hcs).
    exists d, pre, post. cbn [concat]. rewrite Hcs. now rewrite <- app_assoc.
  - destruct (IH cs Hrest) as (pre & mid & post & Hcs).
    exists ((d ++ event_message z) ++ pre), mid, post. cbn [concat].
    rewrite Hcs. now rewrite <- !app_assoc.
Qed.

Lemma note_list_events_Forall (P : MidiEvent -> Prop) bpm notes :
  Forall (fun n => Forall P (note_events bpm n)) notes ->
  Forall P (note_list_events bpm notes).
Proof.
  induction 1 as [| n notes Hn _ IH]; cbn [note_list_events flat_map];
    [constructor |].
  apply Forall_app. split; assumption.
Qed.

Lemma sort_by_Forall {A : Type} (key : A -> Z) (P : A -> Prop) l :
  Forall P l -> Forall P (sort_by key l).
Proof.
  intros H. apply Forall_forall. intros x Hx. apply sort_by_In in Hx.
  rewrite Forall_forall in H. auto.
Qed.

Lemma events_track_data_returns fuel events :
  Forall (fun e => 0 <= ev_time e < 2 ^ 28) events ->
  exists trackData,
    events_track_data (S (S (S (S fuel)))) events = Some trackData
    /\ (4 <= length trackData)%nat.
Proof.
  intros Hev.
  assert (Hasc : ascending ev_time 0 (sort_by ev_time events)).
  { apply sort_by_ascending. eapply Forall_impl; [| exact Hev]. cbn. lia. }
  assert (Hlt : Forall (fun e => ev_time e < 2 ^ 28) (sort_by ev_time events)).
  { apply sort_by_Forall. eapply Forall_impl; [| exact Hev]. cbn. lia. }
  destruct (write_events_returns fuel _ 0 [] (Z.le_refl 0) Hasc Hlt) as [td Htd].
  unfold events_track_data. rewrite Htd. cbn [obind].
  rewrite writeVarInt_groups by lia. cbn [obind].
  eexists. split; [reflexivity |].
  rewrite !length_app. cbn. lia.
Qed.

Lemma setUint32_bytes v : Forall is_byte (setUint32 v).
Proof.
  unfold setUint32, is_byte. repeat constructor; euclid.
Qed.

Lemma map_toUint8_bytes l : Forall is_byte (map toUint8 l).
Proof.
  apply Forall_forall. intros b Hb. apply in_map_iff in Hb.
  destruct Hb as (x & <- & _). unfold toUint8, is_byte. euclid.
Qed.


(** Past 2^28 - 1 the packed buffer turns negative and the emitting loop never
    meets a byte without bit 7: the writer does not return. *)
Lemma emit_minus_one fuel : forall data, writeVarInt_emit fuel (-1) data = None.
Proof.
  induction fuel as [| fuel IH]; intros data; [reflexivity |].
  cbn [writeVarInt_emit].
  change (Int32.and (-1) 128) with 128. change (Int32.sar (-1) 8) with (-1).
  cbn [Z.eqb negb]. apply IH.
Qed.

Lemma writeVarInt_overflow fuel data : writeVarInt fuel data (2 ^ 28) = None.
Proof.
  unfold writeVarInt.
  do 5 (destruct fuel as [| fuel]; [reflexivity |]).
  change (writeVarInt_pack (S (S (S (S (S fuel))))) (2 ^ 28)
            (Int32.and (2 ^ 28) 127)) with (Some (-2139062143)).
  cbn [obind].
  change (writeVarInt_emit (S (S (S (S (S fuel))))) (-2139062143) data)
    with (writeVarInt_emit (S fuel) (-1)
            ((((data ++ [129]) ++ [128]) ++ [128]) ++ [128])).
  apply emit_minus_one.
Qed.

(** * The claims on the MIDI encoder *)

(** C1.  Encoding the empty note list at 120 BPM gives 26 bytes: the MThd
    chunk (length 6, format 0, one track, division 480, which is 1 and 224),
    the MTrk header with length 4, and the track bytes 0x00 0xFF 0x2F 0x00. *)
Theorem generateMidiFile_empty fuel :
  default_bpm = 120%Q
  /\ generateMidiFile (S fuel) [] default_bpm
     = Some (MThd ++ [0; 0; 0; 6] ++ [0; 0] ++ [0; 1] ++ [1; 224]
               ++ MTrk ++ [0; 0; 0; 4] ++ [0x00; 0xFF; 0x2F; 0x00])
  /\ length (MThd ++ [0; 0; 0; 6] ++ [0; 0] ++ [0; 1] ++ [1; 224]
               ++ MTrk ++ [0; 0; 0; 4] ++ [0x00; 0xFF; 0x2F; 0x00]) = 26%nat.
Proof.
  split; [reflexivity |]. split; [| reflexivity].
  unfold generateMidiFile, track_data, sorted_events.
  cbn [note_list_events flat_map sort_by write_events obind].
  assert (Hz : writeVarInt (S fuel) [] 0 = Some [0]) by reflexivity.
  rewrite Hz. reflexivity.
Qed.

(** C3.  For a tick value from 0 to 2^28 - 1, [writeVarInt] appends between
    one and four bytes, and the reader of variable-length quantities gets the
    value back from them, leaving what follows untouched: bit 7 is set on all
    those bytes but the last, and the groups of seven bits come most
    significant first. *)
Theorem writeVarInt_roundtrip fuel data value rest :
  0 <= value < 2 ^ 28 ->
  exists bs,
    writeVarInt (S (S (S (S fuel)))) data value = Some (data ++ bs)
    /\ (1 <= length bs <= 4)%nat
    /\ Forall is_byte bs
    /\ vlq_decode (bs ++ rest) 0 = Some (value, rest).
Proof.
  intros H. exists (vlq_groups value).
  split; [apply writeVarInt_groups, H |].
  split; [| split; [| apply decode_groups, H]].
  - unfold vlq_groups.
    destruct (value <? 2 ^ 7); [cbn; lia |].
    destruct (value <? 2 ^ 14); [cbn; lia |].
    destruct (value <? 2 ^ 21); cbn; lia.
  - unfold vlq_groups, is_byte.
    destruct (Z.ltb_spec value (2 ^ 7)); [repeat constructor; lia |].
    destruct (value <? 2 ^ 14); [repeat constructor; euclid |].
    destruct (value <? 2 ^ 21); repeat constructor; euclid.
Qed.

(** The largest value of the range, written after a note-on message. *)
Lemma writeVarInt_roundtrip_witness :
  exists bs,
    writeVarInt 4 [0x90; 60; 100] 268435455 = Some ([0x90; 60; 100] ++ bs)
    /\ (1 <= length bs <= 4)%nat
    /\ Forall is_byte bs
    /\ vlq_decode (bs ++ [0x80; 60; 0]) 0 = Some (268435455, [0x80; 60; 0]).
Proof.
  apply (writeVarInt_roundtrip 0 [0x90; 60; 100] 268435455 [0x80; 60; 0]). lia.
Defined.

(** C8, as the code has it.  The encoder checks nothing and raises nothing:
    for every note list whose event ticks, computed in binary64 as the code
    computes them, lie in 0 .. 2^28 - 1, whatever the pitches, velocities and
    durations, it returns a file of at least 26 bytes, each in 0 .. 255. *)
Theorem generateMidiFile_no_validation fuel notes bpm events :
  Binary64.note_list_events bpm notes = Some events ->
  Forall (fun e => 0 <= ev_time e < 2 ^ 28) events ->
  exists bytes,
    Binary64.generateMidiFile (S (S (S (S fuel)))) notes bpm = Some bytes
    /\ (26 <= length bytes)%nat
    /\ Forall is_byte bytes.
Proof.
  intros Hevents Hticks.
  destruct (events_track_data_returns fuel events Hticks) as (td & Htd & Hlen).
  unfold Binary64.generateMidiFile, events_file.
  rewrite Hevents. cbn [obind]. rewrite Htd. cbn [obind].
  eexists. split; [reflexivity |]. split.
  - rewrite !length_app, length_map. cbn. lia.
  - repeat (apply Forall_app; split);
      try apply setUint32_bytes; try apply map_toUint8_bytes;
      repeat constructor; unfold is_byte; cbn; lia.
Qed.

(** The note of pitch 200 and velocity 300 has its ticks in the range. *)
Lemma generateMidiFile_no_validation_witness :
  Binary64.note_list_events 120 [invalid_note]
  = Some [mkMidiEvent noteOn 200 300 960; mkMidiEvent noteOff 200 0 480]
  /\ exists bytes,
    Binary64.generateMidiFile 4 [invalid_note] 120 = Some bytes
    /\ (26 <= length bytes)%nat
    /\ Forall is_byte bytes.
Proof.
  assert (H : Binary64.note_list_events 120 [invalid_note]
              = Some [mkMidiEvent noteOn 200 300 960;
                      mkMidiEvent noteOff 200 0 480])
    by (vm_compute; reflexivity).
  split; [exact H |].
  apply (generateMidiFile_no_validation 0 [invalid_note] 120 _ H).
  repeat constructor; cbn [ev_time]; lia.
Defined.

(** C8, as stated, fails: a note of pitch 200 and velocity 300 with a
    negative duration is encoded, and no error is raised. *)
Lemma generateMidiFile_accepts_invalid :
  ~ (0 <= Binary64.note invalid_note <= 127)
  /\ ~ (0 <= Binary64.velocity invalid_note <= 127)
  /\ PrimFloat.ltb (Binary64.duration invalid_note) 0 = true
  /\ Binary64.generateMidiFile 4 [invalid_note] 120
     = Some (MThd ++ [0; 0; 0; 6; 0; 0; 0; 1; 1; 224] ++ MTrk ++ [0; 0; 0; 14]
               ++ [131; 96; 0x80; 200; 0]
               ++ [131; 96; 0x90; 200; 44]
               ++ [0x00; 0xFF; 0x2F; 0x00]).
Proof.
  split; [cbn; lia |]. split; [cbn; lia |]. split; vm_compute; reflexivity.
Qed.

(** C10, as the code has it.  For a positive tempo and a note whose duration
    is not negative, the note-on of the note comes before its note-off in the
    order in which the events are written, also when both fall on the same
    tick.  The events carry the index they had before the sort, each index
    once; and whenever the encoder returns, the message of the note-on is in
    the track bytes before the message of the note-off. *)
Theorem note_on_before_note_off bpm notes k n :
  (0 < bpm)%Q -> nth_error notes k = Some n -> (0 <= duration n)%Q ->
  let on := mkMidiEvent noteOn (note n) (velocity n) (startTick bpm n) in
  let off := mkMidiEvent noteOff (note n) 0 (endTick bpm n) in
  map snd (emission_order bpm notes) = sorted_events bpm notes
  /\ NoDup (map fst (emission_order bpm notes))
  /\ (exists i j,
        (i < j)%nat
        /\ nth_error (emission_order bpm notes) i = Some ((2 * k)%nat, on)
        /\ nth_error (emission_order bpm notes) j = Some ((2 * k + 1)%nat, off))
  /\ (forall fuel trackData,
        track_data fuel notes bpm = Some trackData ->
        exists pre mid post,
          trackData
          = pre ++ event_message on ++ mid ++ event_message off ++ post).
Proof.
  intros Hbpm Hk Hd on off.
  pose proof (emission_order_before bpm notes k n Hbpm Hk Hd) as Hb.
  fold on off in Hb.
  split; [apply emission_order_events |].
  split.
  { eapply Permutation_NoDup;
      [symmetry; apply emission_order_tags | apply seq_NoDup]. }
  split; [apply before_nth, Hb |].
  intros fuel td Htd.
  apply track_data_chunks in Htd. destruct Htd as (chunks & -> & Hall).
  apply (before_map snd) in Hb. rewrite emission_order_events in Hb.
  destruct (chunks_before _ chunks _ _ Hb Hall) as (pre & mid & post & ->).
  exists pre, mid, (post ++ end_of_track). cbn [snd].
  now rewrite <- !app_assoc.
Qed.

(** A note of duration 0: both events fall on tick 0. *)
Lemma note_on_before_note_off_witness :
  startTick 120 instant_note = endTick 120 instant_note
  /\ exists i j,
       (i < j)%nat
       /\ nth_error (emission_order 120 [instant_note]) i
          = Some (0%nat, mkMidiEvent noteOn 60 100 0)
       /\ nth_error (emission_order 120 [instant_note]) j
          = Some (1%nat, mkMidiEvent noteOff 60 0 0).
Proof.
  split; [reflexivity |].
  apply (note_on_before_note_off 120 [instant_note] 0 instant_note).
  - reflexivity.
  - reflexivity.
  - unfold Qle. simpl. lia.
Defined.

(** C10, as stated, fails: a note with a negative duration has its note-off
    sorted, and written, before its note-on. *)
Lemma note_off_first_negative_duration :
  (0 < 120)%Q
  /\ emission_order 120 [backward_note]
     = [(1%nat, mkMidiEvent noteOff 60 0 480);
        (0%nat, mkMidiEvent noteOn 60 100 960)]
  /\ track_data 4 [backward_note] 120
     = Some ([131; 96; 0x80; 60; 0] ++ [131; 96; 0x90; 60; 100]
               ++ end_of_track).
Proof.
  split; [reflexivity |]. split; vm_compute; reflexivity.
Qed.

(** * Facts on binary64 numbers

    The comparisons and the operations of primitive floats are specified on
    [spec_float]: the order is that of sign, exponent and mantissa. *)

Module FloatFacts.

Ltac order_cases :=
  repeat match goal with
  | |- context [Z.compare ?a ?b] => destruct (Z.compare_spec a b)
  | H : context [Z.compare ?a ?b] |- _ => destruct (Z.compare_spec a b)
  | |- context [Pos.compare_cont Eq ?a ?b] =>
      change (Pos.compare_cont Eq a b) with (Pos.compare a b);
      destruct (Pos.compare_spec a b)
  | H : context [Pos.compare_cont Eq ?a ?b] |- _ =>
      change (Pos.compare_cont Eq a b) with (Pos.compare a b) in H;
      destruct (Pos.compare_spec a b)
  end.

Ltac order_solve :=
  unfold SFltb, SFleb, SFcompare;
  repeat match goal with
  | x : spec_float |- _ => destruct x as [[|] | [|] | | [|] ? ?]
  end;
  try discriminate; try reflexivity;
  intros; order_cases; cbn in *; try discriminate; try reflexivity;
  subst; try lia.

Lemma SFltb_trans a b c :
  SFltb a b = true -> SFltb b c = true -> SFltb a c = true.
Proof. order_solve. Qed.

Lemma SFltb_leb_trans a b c :
  SFltb a b = true -> SFleb b c = true -> SFltb a c = true.
Proof. order_solve. Qed.

Lemma SFltb_not_leb a b : SFltb a b = true -> SFleb b a = false.
Proof. order_solve. Qed.

Lemma ltb_trans a b c :
  PrimFloat.ltb a b = true -> PrimFloat.ltb b c = true ->
  PrimFloat.ltb a c = true.
Proof. rewrite !FloatAxioms.ltb_spec. apply SFltb_trans. Qed.

Lemma ltb_leb_trans a b c :
  PrimFloat.ltb a b = true -> PrimFloat.leb b c = true ->
  PrimFloat.ltb a c = true.
Proof. rewrite !FloatAxioms.ltb_spec, FloatAxioms.leb_spec. apply SFltb_leb_trans. Qed.

Lemma ltb_not_leb a b : PrimFloat.ltb a b = true -> PrimFloat.leb b a = false.
Proof. rewrite FloatAxioms.ltb_spec, FloatAxioms.leb_spec. apply SFltb_not_leb. Qed.

(** An operation on [NaN] gives [NaN]. *)
Lemma Prim2SF_nan x : Prim2SF x = S754_nan -> x = PrimFloat.nan.
Proof. intros H. apply Prim2SF_inj. rewrite H. reflexivity. Qed.

Lemma add_nan_l x : (PrimFloat.nan + x)%float = PrimFloat.nan.
Proof. apply Prim2SF_nan. rewrite FloatAxioms.add_spec. reflexivity. Qed.

Lemma sub_nan_l x : (PrimFloat.nan - x)%float = PrimFloat.nan.
Proof. apply Prim2SF_nan. rewrite FloatAxioms.sub_spec. reflexivity. Qed.

Lemma div_nan_l x : (PrimFloat.nan / x)%float = PrimFloat.nan.
Proof. apply Prim2SF_nan. rewrite FloatAxioms.div_spec. reflexivity. Qed.

(** The sign of a rounded result is the sign given to the rounding. *)
Lemma binary_round_aux_sign s m e l :
  match binary_round_aux prec emax s m e l with
  | S754_zero s' | S754_infinity s' | S754_finite s' _ _ => s' = s
  | S754_nan => True
  end.
Proof.
  unfold binary_round_aux.
  destruct (shr_fexp prec emax m e l) as [mrs' e'].
  destruct (shr_fexp prec emax _ e' loc_Exact) as [mrs'' e''].
  destruct (shr_m mrs'') as [| p | p]; [reflexivity | | exact I].
  destruct (e'' <=? emax - prec); reflexivity.
Qed.

Lemma SFdiv_positive x y :
  SFltb (S754_zero false) x = true ->
  SFltb (S754_zero false) (SF64div x y) = true ->
  SFltb (SF64div x y) (S754_infinity false) = true ->
  SFltb (S754_zero false) y = true /\ SFltb y (S754_infinity false) = true.
Proof.
  unfold SF64div, SFdiv.
  destruct x as [sx | sx | | sx mx ex], y as [sy | sy | | sy my ey];
    try destruct sx; try destruct sy; cbn; try discriminate;
    try (split; reflexivity).
  all: destruct (SFdiv_core_binary prec emax (Z.pos mx) ex (Z.pos my) ey)
         as [[mz ez] lz].
  all: intros _ H0 Hinf.
  all: match goal with
       | H : context [binary_round_aux ?p ?m ?s ?a ?b ?c] |- _ =>
           pose proof (binary_round_aux_sign s a b c) as Hs;
           destruct (binary_round_aux p m s a b c) as [s' | s' | | s' ? ?]
       end.
  all: try discriminate; subst; cbn in *; try discriminate.
Qed.

(** A quotient of a positive number that is positive and finite has a
    divisor that is positive and finite. *)
Lemma div_positive x y :
  PrimFloat.ltb 0 x = true ->
  PrimFloat.ltb 0 (x / y) = true ->
  PrimFloat.ltb (x / y) PrimFloat.infinity = true ->
  PrimFloat.ltb 0 y = true /\ PrimFloat.ltb y PrimFloat.infinity = true.
Proof.
  rewrite !FloatAxioms.ltb_spec, FloatAxioms.div_spec.
  change (Prim2SF 0) with (S754_zero false).
  change (Prim2SF PrimFloat.infinity) with (S754_infinity false).
  apply SFdiv_positive.
Qed.

(** A positive number divided by zero is [Infinity]. *)
Lemma div_zero x :
  PrimFloat.ltb 0 x = true -> (x / 0)%float = PrimFloat.infinity.
Proof.
  rewrite FloatAxioms.ltb_spec. change (Prim2SF 0) with (S754_zero false).
  intros H. apply Prim2SF_inj. rewrite FloatAxioms.div_spec.
  change (Prim2SF 0) with (S754_zero false).
  change (Prim2SF PrimFloat.infinity) with (S754_infinity false).
  destruct (Prim2SF x) as [[|] | [|] | | [|] m e]; try discriminate; reflexivity.
Qed.

End FloatFacts.

(** * The pitch estimator: its loops *)

Lemma find_from_spec hit n : forall i,
  match find_from n i hit with
  | Some k => i <= k < i + Z.of_nat n /\ hit k = true
              /\ forall j, i <= j < k -> hit j = false
  | None => forall j, i <= j < i + Z.of_nat n -> hit j = false
  end.
Proof.
  induction n as [| n IH]; intros i; cbn [find_from].
  - intros j Hj. lia.
  - destruct (hit i) eqn:Hi.
    + repeat split; try lia. exact Hi.
    + specialize (IH (i + 1)). destruct (find_from n (i + 1) hit) as [k |].
      * destruct IH as (Hk & Hhit & Hbefore). repeat split; try lia; [exact Hhit |].
        intros j Hj. destruct (Z.eq_dec j i) as [-> | Hne]; [exact Hi |].
        apply Hbefore. lia.
      * intros j Hj. destruct (Z.eq_dec j i) as [-> | Hne]; [exact Hi |].
        apply IH. lia.
Qed.

Lemma half_up_bound size i : 0 <= size -> (i < half_up size <-> 2 * i < size).
Proof. unfold half_up. intros H. split; intros Hi; euclid. Qed.

Lemma trim_r1_first_quiet buf : first_quiet buf (trim_r1 buf).
Proof.
  unfold first_quiet, trim_r1.
  set (size := Z.of_nat (length buf)).
  assert (Hsize : 0 <= size) by (subst size; lia).
  assert (Hhalf : 0 <= half_up size) by (unfold half_up; euclid).
  pose proof (find_from_spec (quiet buf) (Z.to_nat (half_up size)) 0) as H.
  rewrite Z2Nat.id in H by exact Hhalf.
  destruct (find_from (Z.to_nat (half_up size)) 0 (quiet buf)) as [k |].
  - left. destruct H as (Hk & Hq & Hb). repeat split; try lia; try assumption.
    apply half_up_bound; lia.
  - right. split; [reflexivity |]. intros i Hi Hlt. apply H.
    apply half_up_bound in Hlt; lia.
Qed.

Lemma trim_r2_last_quiet buf : last_quiet buf (trim_r2 buf).
Proof.
  unfold last_quiet, trim_r2.
  set (size := Z.of_nat (length buf)).
  assert (Hsize : 0 <= size) by (subst size; lia).
  pose proof (find_from_spec (fun i => quiet buf (size - i))
                (Z.to_nat (half_up size - 1)) 1) as H.
  destruct (find_from (Z.to_nat (half_up size - 1)) 1
              (fun i => quiet buf (size - i))) as [k |].
  - left. destruct H as (Hk & Hq & Hb). exists k.
    assert (Hk' : k < half_up size) by lia.
    apply half_up_bound in Hk'; [| exact Hsize].
    repeat split; try lia; assumption.
  - right. split; [reflexivity |]. intros i Hi Hlt. apply H.
    apply half_up_bound in Hlt; lia.
Qed.

Lemma rd_Some c i x : JS.rd c i = Some x -> 0 <= i < Z.of_nat (length c).
Proof.
  unfold JS.rd. destruct (Z.ltb_spec i 0) as [| Hi]; [discriminate |].
  intros H. assert (Hn : nth_error c (Z.to_nat i) <> None) by congruence.
  apply nth_error_Some in Hn. lia.
Qed.

Lemma gt_Some_l a b : JS.gt a b = true -> exists x, a = Some x.
Proof. destruct a as [x |]; [eauto | discriminate]. Qed.

Lemma gt_Some_r a b : JS.gt a b = true -> exists y, b = Some y.
Proof. destruct a, b as [y |]; try discriminate. eauto. Qed.

Lemma skip_descending_exits c : forall fuel d,
  0 <= d -> Z.of_nat (length c) <= d + Z.of_nat fuel -> (1 <= fuel)%nat ->
  exists d', skip_descending fuel c d = Some d'
             /\ d <= d' /\ (d' = d \/ d' < Z.of_nat (length c)).
Proof.
  induction fuel as [| fuel IH]; intros d Hd Hlen Hfuel; [lia |].
  cbn [skip_descending].
  destruct (JS.gt (JS.rd c d) (JS.rd c (d + 1))) eqn:Hgt.
  - apply gt_Some_r in Hgt. destruct Hgt as [y Hy]. apply rd_Some in Hy.
    destruct (IH (d + 1)) as (d' & Hskip & Hle & Hbound); try lia.
    exists d'. repeat split; [exact Hskip | lia | right; lia].
  - exists d. repeat split; [lia | left; reflexivity].
Qed.

Lemma skip_descending_more c : forall fuel extra d d',
  skip_descending fuel c d = Some d' ->
  skip_descending (fuel + extra) c d = Some d'.
Proof.
  induction fuel as [| fuel IH]; intros extra d d' H; [discriminate |].
  cbn [skip_descending Nat.add] in *.
  destruct (JS.gt (JS.rd c d) (JS.rd c (d + 1))); [apply IH, H | exact H].
Qed.

Lemma find_max_lag c n : forall i maxval maxpos,
  snd (find_max n i c maxval maxpos) = maxpos
  \/ (i <= snd (find_max n i c maxval maxpos) < i + Z.of_nat n
      /\ 0 <= snd (find_max n i c maxval maxpos) < Z.of_nat (length c)).
Proof.
  induction n as [| n IH]; intros i maxval maxpos; cbn [find_max].
  - left. reflexivity.
  - destruct (JS.gt (JS.rd c i) (Some maxval)) eqn:Hgt.
    + apply gt_Some_l in Hgt. destruct Hgt as [x Hx]. apply rd_Some in Hx.
      destruct (IH (i + 1) (JS.toNumber (JS.rd c i)) i) as [-> | [H1 H2]].
      * right. lia.
      * right. lia.
    + destruct (IH (i + 1) maxval maxpos) as [-> | [H1 H2]].
      * left. reflexivity.
      * right. lia.
Qed.

Lemma peak_lag_range c d :
  0 <= d ->
  peak_lag c d = -1 \/ d <= peak_lag c d < Z.of_nat (length c).
Proof.
  intros Hd. unfold peak_lag.
  destruct (find_max_lag c (Z.to_nat (Z.of_nat (length c) - d)) d (-1)%float (-1))
    as [H | [H1 H2]]; [left; exact H | right; lia].
Qed.

(** The peak search keeps the first of the largest values: what comes before
    the peak is not at or above it, what comes after is not above it. *)
Lemma find_max_first c n : forall i maxval maxpos,
  0 <= i ->
  (find_max n i c maxval maxpos = (maxval, maxpos)
   /\ forall j, i <= j < i + Z.of_nat n ->
                JS.gt (JS.rd c j) (Some maxval) = false)
  \/ (exists p M,
        find_max n i c maxval maxpos = (M, p)
        /\ i <= p < i + Z.of_nat n
        /\ JS.rd c p = Some M
        /\ PrimFloat.ltb maxval M = true
        /\ (forall j, i <= j < p -> JS.ge (JS.rd c j) (Some M) = false)
        /\ (forall j, p < j < i + Z.of_nat n ->
                      JS.gt (JS.rd c j) (Some M) = false)).
Proof.
  induction n as [| n IH]; intros i maxval maxpos Hi; cbn [find_max].
  - left. split; [reflexivity | intros j Hj; lia].
  - destruct (JS.gt (JS.rd c i) (Some maxval)) eqn:Hgt.
    + right. destruct (gt_Some_l _ _ Hgt) as [x Hx]. rewrite Hx in *.
      cbn [JS.toNumber JS.gt] in *.
      destruct (IH (i + 1) x i ltac:(lia))
        as [[Heq Hno] | (p & M & Heq & Hp & Hrd & Hlt & Hpre & Hpost)].
      * exists i, x. rewrite Heq.
        split; [reflexivity |]. split; [lia |]. split; [exact Hx |].
        split; [exact Hgt |]. split; [intros j Hj; lia |].
        intros j Hj. apply Hno. lia.
      * exists p, M. rewrite Heq.
        split; [reflexivity |]. split; [lia |]. split; [exact Hrd |].
        split; [exact (FloatFacts.ltb_trans _ _ _ Hgt Hlt) |].
        split; [| intros j Hj; apply Hpost; lia].
        intros j Hj. destruct (Z.eq_dec j i) as [-> | Hne]; [| apply Hpre; lia].
        rewrite Hx. cbn [JS.ge]. apply FloatFacts.ltb_not_leb, Hlt.
    + destruct (IH (i + 1) maxval maxpos ltac:(lia))
        as [[Heq Hno] | (p & M & Heq & Hp & Hrd & Hlt & Hpre & Hpost)].
      * left. split; [exact Heq |]. intros j Hj.
        destruct (Z.eq_dec j i) as [-> | Hne]; [exact Hgt | apply Hno; lia].
      * right. exists p, M. rewrite Heq.
        split; [reflexivity |]. split; [lia |]. split; [exact Hrd |].
        split; [exact Hlt |]. split; [| intros j Hj; apply Hpost; lia].
        intros j Hj. destruct (Z.eq_dec j i) as [-> | Hne]; [| apply Hpre; lia].
        destruct (JS.rd c i) as [y |]; [| reflexivity].
        cbn [JS.ge JS.gt] in *.
        destruct (PrimFloat.leb M y) eqn:Hle; [| reflexivity].
        rewrite (FloatFacts.ltb_leb_trans _ _ _ Hlt Hle) in Hgt. discriminate.
Qed.

(** At a peak lag of -1 or 0, [c[T0 - 1]] is [undefined]: the coefficient [a]
    is [NaN] and the refinement is skipped. *)
Lemma refine_at_edge c lag :
  lag = -1 \/ lag = 0 -> refine c lag = JS.of_Z lag.
Proof.
  intros H. unfold refine.
  assert (Hx1 : JS.toNumber (JS.rd c (lag - 1)) = PrimFloat.nan)
    by (destruct H as [-> | ->]; reflexivity).
  rewrite Hx1.
  rewrite FloatFacts.add_nan_l, FloatFacts.sub_nan_l, FloatFacts.div_nan_l.
  reflexivity.
Qed.

Lemma length_slice {A : Type} (buf : list A) s e :
  (length (JS.slice buf s e) <= length buf)%nat.
Proof.
  unfold JS.slice. rewrite length_firstn, length_skipn. lia.
Qed.

Lemma length_autocorrelate s : length (autocorrelate s) = length s.
Proof. unfold autocorrelate. now rewrite length_map, length_seq. Qed.

Lemma correlation_size buf :
  (length (autocorrelate (bufSlice buf)) <= length buf)%nat.
Proof. rewrite length_autocorrelate. apply length_slice. Qed.

(** * The claims on the pitch estimator *)

(** C4, as the code has it.  For a frame whose RMS is not below 0.01, the
    autocorrelation is computed on [buf.slice(r1, r2)], where [r1] is the first
    index below [size / 2] whose sample is under the 0.2 threshold in absolute
    value (0 when there is none) and [r2] is [size - i] for the first [i] from
    1 below [size / 2] with [buf[size - i]] under the threshold ([size - 1]
    when there is none). *)
Theorem getPitch_trim fuel buf sampleRate :
  PrimFloat.ltb (frame_rms buf) 0.01%float = false ->
  exists r1 r2,
    first_quiet buf r1 /\ last_quiet buf r2
    /\ getPitch fuel buf sampleRate
       = (let c := autocorrelate (JS.slice buf r1 r2) in
          d <- skip_descending fuel c 0 ;;
          Some (sampleRate / refine c (peak_lag c d))%float).
Proof.
  intros Hrms. exists (trim_r1 buf), (trim_r2 buf).
  split; [apply trim_r1_first_quiet |]. split; [apply trim_r2_last_quiet |].
  unfold getPitch. rewrite Hrms. reflexivity.
Qed.

(** The frame with silent ends is above the noise floor. *)
Lemma getPitch_trim_witness :
  PrimFloat.ltb (frame_rms frame_silent_ends) 0.01%float = false
  /\ exists r1 r2,
    first_quiet frame_silent_ends r1 /\ last_quiet frame_silent_ends r2
    /\ getPitch 7 frame_silent_ends 44100%float
       = (let c := autocorrelate (JS.slice frame_silent_ends r1 r2) in
          d <- skip_descending 7 c 0 ;;
          Some (44100 / refine c (peak_lag c d))%float).
Proof.
  split; [vm_compute; reflexivity |].
  apply (getPitch_trim 7 frame_silent_ends 44100%float). vm_compute. reflexivity.
Defined.

(** C4, as stated, fails: on a frame that starts and ends on a silent sample,
    nothing is trimmed at the start and one sample at the end, while the
    region between the first and the last loud sample is shorter. *)
Lemma getPitch_trim_not_loud_region :
  PrimFloat.ltb (frame_rms frame_silent_ends) 0.01%float = false
  /\ bufSlice frame_silent_ends = [0; 0.5; 0.5; -0.5; 0.5]%float
  /\ spec_trim frame_silent_ends = [0.5; 0.5; -0.5; 0.5]%float
  /\ bufSlice frame_silent_ends <> spec_trim frame_silent_ends.
Proof.
  repeat split; try (vm_compute; reflexivity).
  intros H. apply (f_equal (@length float)) in H. vm_compute in H. discriminate.
Qed.

(** C5, as the code has it.  The estimator returns, and its result is the
    sentinel -1 when the RMS is below 0.01; otherwise it is the sample rate
    divided by the refined peak lag [T0], which is not guarded.  The peak lag
    is -1 exactly when no correlation value from the skip index on is above
    -1, and otherwise an index of the correlation buffer from the skip index
    on.  At a peak lag of -1 or 0 the refinement is skipped and [T0] is -1 or
    0: a peak lag of 0 gives [Infinity] for a positive sample rate.  For a
    positive sample rate, the result is positive and finite only if [T0] is
    positive and finite. *)
Theorem getPitch_result buf sampleRate :
  exists r,
    getPitch (S (length buf)) buf sampleRate = Some r
    /\ ((PrimFloat.ltb (frame_rms buf) 0.01%float = true /\ r = no_pitch)
        \/ (PrimFloat.ltb (frame_rms buf) 0.01%float = false
            /\ exists d lag,
                let c := autocorrelate (bufSlice buf) in
                skip_descending (S (length buf)) c 0 = Some d
                /\ lag = peak_lag c d
                /\ ((lag = -1
                     /\ forall j, d <= j < Z.of_nat (length c) ->
                           JS.gt (JS.rd c j) (Some (-1)%float) = false)
                    \/ (d <= lag < Z.of_nat (length c)
                        /\ JS.gt (JS.rd c lag) (Some (-1)%float) = true))
                /\ r = (sampleRate / refine c lag)%float
                /\ (lag = -1 -> refine c lag = (-1)%float)
                /\ (lag = 0 -> refine c lag = 0%float
                               /\ (PrimFloat.ltb 0 sampleRate = true ->
                                   r = PrimFloat.infinity))
                /\ (PrimFloat.ltb 0 sampleRate = true ->
                    PrimFloat.ltb 0 r = true ->
                    PrimFloat.ltb r PrimFloat.infinity = true ->
                    PrimFloat.ltb 0 (refine c lag) = true
                    /\ PrimFloat.ltb (refine c lag) PrimFloat.infinity = true))).
Proof.
  unfold getPitch.
  destruct (PrimFloat.ltb (frame_rms buf) 0.01%float) eqn:Hrms.
  - exists no_pitch. split; [reflexivity |]. left. split; reflexivity.
  - set (c := autocorrelate (bufSlice buf)).
    destruct (skip_descending_exits c (S (length buf)) 0) as (d & Hd & Hle & _).
    + lia.
    + pose proof (correlation_size buf). subst c. lia.
    + lia.
    + rewrite Hd. cbn [obind]. eexists. split; [reflexivity |]. right.
      split; [reflexivity |]. exists d, (peak_lag c d). cbn zeta.
      split; [reflexivity |]. split; [reflexivity |].
      split; [| split; [reflexivity |]].
      * unfold peak_lag.
        destruct (Z.le_gt_cases d (Z.of_nat (length c))) as [Hin | Hout].
        -- destruct (find_max_first c (Z.to_nat (Z.of_nat (length c) - d)) d
                       (-1)%float (-1) Hle)
             as [[Heq Hno] | (p & M & Heq & Hp & Hrd & Hlt & _ & _)];
             rewrite Heq; cbn [snd].
           ++ left. split; [reflexivity |]. intros j Hj. apply Hno. lia.
           ++ right. split; [lia |]. rewrite Hrd. exact Hlt.
        -- left. replace (Z.to_nat (Z.of_nat (length c) - d)) with 0%nat by lia.
           cbn [find_max snd]. split; [reflexivity | intros j Hj; lia].
      * split; [| split].
        -- intros Hlag. rewrite refine_at_edge by (left; exact Hlag).
           rewrite Hlag. reflexivity.
        -- intros Hlag. rewrite refine_at_edge by (right; exact Hlag).
           rewrite Hlag. split; [reflexivity |].
           intros Hrate. apply FloatFacts.div_zero, Hrate.
        -- apply FloatFacts.div_positive.
Qed.

(** C5, as stated, fails: a frame whose trimmed region is silent has a peak
    lag of 0, and the result is infinite. *)
Lemma getPitch_infinite :
  getPitch 7 frame_silent_middle 44100%float = Some PrimFloat.infinity
  /\ PrimFloat.infinity <> no_pitch.
Proof.
  split; [vm_compute; reflexivity |].
  intros H. apply (f_equal PrimFloat.classify) in H. vm_compute in H. discriminate.
Qed.

(** C9.  Every call of the estimator returns, with fuel for one round more
    than the frame has samples (and with any more), and the skip loop over a
    correlation buffer exits on a lag index between 0 and the length of the
    buffer: a read past the end is [undefined], and the comparison fails. *)
Theorem getPitch_terminates buf sampleRate extra :
  (exists r, getPitch (S (length buf) + extra) buf sampleRate = Some r)
  /\ (forall c, exists d,
         skip_descending (S (length c) + extra) c 0 = Some d
         /\ 0 <= d <= Z.of_nat (length c)).
Proof.
  assert (Hskip : forall c n, (length c <= n)%nat -> exists d,
           skip_descending (S n + extra) c 0 = Some d
           /\ 0 <= d <= Z.of_nat (length c)).
  { intros c n Hn.
    destruct (skip_descending_exits c (S n) 0) as (d & Hd & Hle & Hb); try lia.
    exists d. split; [apply skip_descending_more, Hd | lia]. }
  split.
  - unfold getPitch.
    destruct (PrimFloat.ltb (frame_rms buf) 0.01%float); [eauto |].
    destruct (Hskip (autocorrelate (bufSlice buf)) (length buf)
                (correlation_size buf)) as (d & Hd & _).
    rewrite Hd. cbn [obind]. eauto.
  - intros c. apply Hskip. lia.
Qed.

(** * The claims on the tap tempo tracker *)

Lemma tap_intervals_sum : forall l a acc,
  fold_left Z.add (tap_intervals (a :: l)) acc = acc + (last l a - a).
Proof.
  induction l as [| b l IH]; intros a acc.
  - cbn. lia.
  - change (tap_intervals (a :: b :: l)) with ((b - a) :: tap_intervals (b :: l)).
    cbn [fold_left]. rewrite IH.
    change (last (b :: l) a) with (match l with [] => b | _ => last l a end).
    destruct l as [| c l]; cbn [last]; [lia |].
    assert (H : forall d, last (c :: l) d = last (c :: l) a).
    { clear. revert c. induction l as [| e l IH]; intros c d; [reflexivity |].
      change (last (c :: e :: l) d) with (last (e :: l) d).
      change (last (c :: e :: l) a) with (last (e :: l) a). apply IH. }
    cbn [last] in H. rewrite (H b). lia.
Qed.

Lemma tap_intervals_length : forall l a,
  length (tap_intervals (a :: l)) = length l.
Proof.
  induction l as [| b l IH]; intros a; [reflexivity |].
  change (tap_intervals (a :: b :: l)) with ((b - a) :: tap_intervals (b :: l)).
  cbn [length]. now rewrite IH.
Qed.

Lemma newTaps_kept now st :
  filter (fun t => now - t <? 3000) (taps st ++ [now]) = kept_taps now st ++ [now].
Proof.
  rewrite filter_app. cbn [filter]. replace (now - now) with 0 by lia.
  reflexivity.
Qed.

(** C7, as the code has it.  A tap keeps the earlier timestamps less than
    3000 ms old and adds its own; when none is kept the BPM is left as it
    was, and otherwise it is [Math.round(60000 / mean)], the mean interval
    being the time from the oldest kept timestamp to now over the number of
    kept timestamps.  Nothing guards a mean of zero. *)
Theorem handleTap_unguarded now st :
  taps (handleTap now st) = kept_taps now st ++ [now]
  /\ match kept_taps now st with
     | [] => bpm (handleTap now st) = bpm st
     | oldest :: _ =>
         bpm (handleTap now st)
         = JS.Math_round
             (60000 / (JS.of_Z (now - oldest)
                       / JS.of_Z (Z.of_nat (length (kept_taps now st)))))%float
     end.
Proof.
  unfold handleTap. rewrite newTaps_kept.
  destruct (kept_taps now st) as [| oldest kept] eqn:Hk.
  - cbn. split; reflexivity.
  - assert (Hlen : (1 <? length ((oldest :: kept) ++ [now]))%nat = true).
    { apply Nat.ltb_lt. rewrite length_app. cbn. lia. }
    rewrite Hlen. cbn [taps bpm]. split; [reflexivity |].
    unfold avgInterval. cbn [app].
    rewrite tap_intervals_sum, tap_intervals_length, last_last, length_app.
    cbn [length]. do 4 f_equal; f_equal; lia.
Qed.

(** C7, as stated, fails: two taps in the same millisecond give a mean
    interval of zero, and the BPM computed and shown is infinite. *)
Lemma handleTap_same_millisecond :
  bpm (handleTap 5 (handleTap 5 initial_taps)) = PrimFloat.infinity
  /\ avgInterval (tap_intervals (taps (handleTap 5 (handleTap 5 initial_taps))))
     = 0%float
  /\ shown_bpm (handleTap 5 (handleTap 5 initial_taps)) = Some PrimFloat.infinity.
Proof. repeat split; vm_compute; reflexivity. Qed.


(** Two taps at least 3000 ms apart, from the empty tracker. *)
Lemma handleTap_stale t0 t1 :
  3000 <= t1 - t0 ->
  taps (handleTap t1 (handleTap t0 initial_taps)) = [t1]
  /\ shown_bpm (handleTap t1 (handleTap t0 initial_taps)) = None.
Proof.
  intros Hgap.
  assert (H0 : handleTap t0 initial_taps = mkTapState [t0] 0%float).
  { unfold handleTap, initial_taps. cbn [taps app filter bpm].
    replace (t0 - t0) with 0 by lia. reflexivity. }
  rewrite H0. unfold handleTap. cbn [taps app filter bpm].
  destruct (Z.ltb_spec (t1 - t0) 3000) as [Hlt | _]; [lia |].
  replace (t1 - t1) with 0 by lia. cbn. split; reflexivity.
Qed.


(** C6.  From the empty tracker, a tap at 0 and then a tap at 4000 leave the
    window with the second timestamp alone, and the pad shows the mark of
    insufficient data, no BPM. *)
Theorem handleTap_stale_gap :
  taps (handleTap 0 initial_taps) = [0]
  /\ taps (handleTap 4000 (handleTap 0 initial_taps)) = [4000]
  /\ shown_bpm (handleTap 4000 (handleTap 0 initial_taps)) = None.
Proof.
  split; [reflexivity |]. apply handleTap_stale. lia.
Qed.

(** * The note conversions on real numbers *)

Module NoteMapperFacts.
Import NoteMapper.
Local Open Scope R_scope.

Lemma ln_2_pos : 0 < ln 2.
Proof. rewrite <- ln_1. apply ln_increasing; lra. Qed.

Lemma Math_round_IZR k : Math_round (IZR k) = k.
Proof.
  unfold Math_round. symmetry. apply Int_part_spec. lra.
Qed.

Lemma Math_floor_div12 q r :
  (0 <= r < 12)%Z -> Math_floor (IZR (q * 12 + r) / 12) = q.
Proof.
  intros [H0 H12]. unfold Math_floor. symmetry. apply Int_part_spec.
  rewrite plus_IZR, mult_IZR. apply IZR_le in H0. apply IZR_lt in H12. lra.
Qed.

Lemma frequency_pos x : 0 < 440 * Rpower 2 x.
Proof. apply Rmult_lt_0_compat; [lra | apply exp_pos]. Qed.

Lemma noteFromPitch_frequency midi :
  noteFromPitch (440 * Rpower 2 ((IZR midi - 69) / 12)) = midi.
Proof.
  unfold noteFromPitch.
  replace (440 * Rpower 2 ((IZR midi - 69) / 12) / 440)
    with (Rpower 2 ((IZR midi - 69) / 12)) by (field).
  unfold Rpower. rewrite ln_exp.
  pose proof ln_2_pos as Hln.
  replace (12 * ((IZR midi - 69) / 12 * ln 2 / ln 2)) with (IZR (midi - 69)).
  - rewrite Math_round_IZR. lia.
  - rewrite minus_IZR. field. lra.
Qed.

Lemma centsOffFromPitch_exact midi :
  centsOffFromPitch (440 * Rpower 2 ((IZR midi - 69) / 12)) midi = 0%Z.
Proof.
  unfold centsOffFromPitch, frequencyFromNoteNumber.
  pose proof (frequency_pos ((IZR midi - 69) / 12)) as Hpos.
  replace (440 * Rpower 2 ((IZR midi - 69) / 12)
           / (440 * Rpower 2 ((IZR midi - 69) / 12))) with 1
    by (field; lra).
  rewrite ln_1. unfold Math_floor. symmetry. apply Int_part_spec.
  unfold Rdiv. rewrite Rmult_0_r, Rmult_0_l. lra.
Qed.

Lemma indexOf_NOTES name :
  In name NOTES ->
  exists noteIdx, indexOf NOTES name = Some noteIdx
                  /\ (0 <= noteIdx < 12)%Z
                  /\ rd_name NOTES noteIdx = Some name.
Proof.
  unfold NOTES. cbn [In]. intros H.
  repeat (destruct H as [<- | H];
          [eexists; split; [vm_compute; reflexivity |];
           split; [lia | reflexivity] |]).
  destruct H.
Qed.

End NoteMapperFacts.

(** * The claim on the note conversions *)

(** C2.  For each of the twelve names and each octave from 0 to 8, the
    frequency of the note, 440 * 2^((midi - 69) / 12) with
    midi = (octave + 1) * 12 + index, maps back to the same name and octave
    with a deviation of 0 cents. *)
Theorem note_roundtrip name octave :
  In name NoteMapper.NOTES -> In octave NoteMapper.OCTAVES ->
  exists freq,
    NoteMapper.noteToFrequency name octave = Some freq
    /\ NoteMapper.frequencyToNote freq
       = Some (NoteMapper.mkNoteLabel (Some name) octave 0).
Proof.
  intros Hname Hoct.
  destruct (NoteMapperFacts.indexOf_NOTES name Hname) as (idx & Hidx & Hrange & Hrd).
  assert (Ho : 0 <= octave <= 8).
  { unfold NoteMapper.OCTAVES in Hoct. cbn [In] in Hoct. lia. }
  unfold NoteMapper.noteToFrequency. rewrite Hidx.
  eexists. split; [reflexivity |].
  unfold NoteMapper.frequencyToNote.
  destruct (Rlt_dec 0 _) as [_ | Hn];
    [| exfalso; apply Hn, NoteMapperFacts.frequency_pos].
  rewrite NoteMapperFacts.noteFromPitch_frequency.
  rewrite NoteMapperFacts.centsOffFromPitch_exact.
  rewrite NoteMapperFacts.Math_floor_div12 by exact Hrange.
  f_equal. f_equal.
  - rewrite <- Hrd. f_equal.
    rewrite Z.rem_mod_nonneg by lia.
    rewrite Z.add_comm, Z.mod_add by lia. apply Z.mod_small. lia.
  - lia.
Qed.

(** A4, the note selected at the start. *)
Lemma note_roundtrip_witness :
  exists freq,
    NoteMapper.noteToFrequency NoteMapper.initial_note 4 = Some freq
    /\ NoteMapper.frequencyToNote freq
       = Some (NoteMapper.mkNoteLabel (Some NoteMapper.initial_note) 4 0).
Proof.
  apply (note_roundtrip NoteMapper.initial_note 4).
  - unfold NoteMapper.NOTES. simpl. tauto.
  - unfold NoteMapper.OCTAVES. simpl. tauto.
Defined.

(** * More of the code: the delta-time writer outside its range *)

Module Int32Wide.

Lemma and_7f_int32 x : - 2 ^ 31 <= x < 2 ^ 31 -> Int32.and x 0x7f = x mod 128.
Proof.
  intros H. unfold Int32.and. rewrite toInt32_small by lia.
  change (Int32.toInt32 127) with (Z.ones 7). rewrite Z.land_ones by lia.
  reflexivity.
Qed.

Lemma and_ff_int32 x : - 2 ^ 31 <= x < 2 ^ 31 -> Int32.and x 0xff = x mod 256.
Proof.
  intros H. unfold Int32.and. rewrite toInt32_small by lia.
  change (Int32.toInt32 255) with (Z.ones 8). rewrite Z.land_ones by lia.
  reflexivity.
Qed.

Lemma and_80_int32 x :
  - 2 ^ 31 <= x < 2 ^ 31 -> Int32.and x 0x80 = 128 * ((x / 128) mod 2).
Proof.
  intros H. unfold Int32.and. rewrite toInt32_small by lia.
  change (Int32.toInt32 128) with 128. apply land_pow2_7.
Qed.

Lemma sar_7_int32 x : - 2 ^ 31 <= x < 2 ^ 31 -> Int32.sar x 7 = x / 128.
Proof.
  intros H. unfold Int32.sar. rewrite toInt32_small by lia.
  rewrite Z.shiftr_div_pow2 by lia. reflexivity.
Qed.

Lemma sar_8_int32 x : - 2 ^ 31 <= x < 2 ^ 31 -> Int32.sar x 8 = x / 256.
Proof.
  intros H. unfold Int32.sar. rewrite toInt32_small by lia.
  rewrite Z.shiftr_div_pow2 by lia. reflexivity.
Qed.

(** The shift of a buffer whose bit 23 is set wraps to a negative number. *)
Lemma shl_8_wrap x :
  2 ^ 23 <= x mod 2 ^ 24 -> 0 <= x < 2 ^ 31 ->
  Int32.shl x 8 = (x mod 2 ^ 24) * 256 - 2 ^ 32.
Proof.
  intros Hbit H. unfold Int32.shl. rewrite (toInt32_small x) by lia.
  rewrite Z.shiftl_mul_pow2 by lia. unfold Int32.toInt32. euclid.
Qed.

Lemma or_80_int32 x :
  - 2 ^ 31 <= x < 2 ^ 31 -> x mod 256 = 0 -> Int32.or x 0x80 = x + 128.
Proof.
  intros H Hlow. unfold Int32.or. rewrite toInt32_small by lia.
  change (Int32.toInt32 128) with 128.
  assert (Hdis : Z.land x 128 = 0).
  { rewrite land_pow2_7. euclid. }
  rewrite <- Z.lxor_lor by exact Hdis.
  symmetry. apply Z.add_nocarry_lxor. exact Hdis.
Qed.

End Int32Wide.

Import Int32Wide.

Lemma emit_continue fuel b data :
  - 2 ^ 31 <= b < 2 ^ 31 -> (b / 128) mod 2 = 1 ->
  writeVarInt_emit (S fuel) b data
  = writeVarInt_emit fuel (b / 256) (data ++ [b mod 256]).
Proof.
  intros Hb Hbit. cbn [writeVarInt_emit].
  rewrite and_80_int32, and_ff_int32, sar_8_int32 by lia.
  rewrite Hbit. reflexivity.
Qed.

(** A negative buffer whose bytes all have bit 7 set is never emitted to the
    end. *)
Lemma emit_negative fuel b data :
  - 2 ^ 31 <= b < 0 ->
  (b / 128) mod 2 = 1 -> (b / 256 / 128) mod 2 = 1 ->
  (b / 256 / 256 / 128) mod 2 = 1 ->
  writeVarInt_emit fuel b data = None.
Proof.
  intros Hb H0 H1 H2.
  destruct fuel as [| [| [| [| fuel]]]];
    repeat (rewrite emit_continue by euclid); try reflexivity.
  replace (b / 256 / 256 / 256 / 256) with (-1) by euclid.
  apply emit_minus_one.
Qed.

Lemma pack_step_wrap fuel value buffer :
  128 <= value < 2 ^ 31 -> 0 <= buffer < 2 ^ 31 -> 2 ^ 23 <= buffer mod 2 ^ 24 ->
  writeVarInt_pack (S fuel) value buffer
  = writeVarInt_pack fuel (value / 128)
      ((buffer mod 2 ^ 24) * 256 - 2 ^ 32 + 128 + (value / 128) mod 128).
Proof.
  intros Hv Hb Hbit. cbn [writeVarInt_pack]. rewrite sar_7 by lia.
  assert (Hq : 0 < value / 128 < 2 ^ 31) by euclid.
  destruct (Z.ltb_spec 0 (value / 128)) as [_ | Hc]; [| lia].
  rewrite shl_8_wrap by lia. rewrite or_80_int32 by euclid.
  rewrite and_7f by lia. reflexivity.
Qed.

(** From 2^28 on the fifth group pushes bit 7 of the second group into the
    sign bit of the buffer. *)
Lemma writeVarInt_hangs fuel data value :
  2 ^ 28 <= value < 2 ^ 31 -> writeVarInt fuel data value = None.
Proof.
  intros H. unfold writeVarInt. rewrite and_7f by lia.
  destruct fuel as [| [| [| [| [| fuel]]]]].
  - reflexivity.
  - rewrite pack_step by euclid. reflexivity.
  - rewrite !pack_step by euclid. reflexivity.
  - rewrite !pack_step by euclid. reflexivity.
  - rewrite 3!pack_step by euclid. rewrite pack_step_wrap by euclid. reflexivity.
  - rewrite 3!pack_step by euclid. rewrite pack_step_wrap by euclid.
    rewrite pack_stop by euclid. cbn [obind].
    apply emit_negative; euclid.
Qed.

(** X1.  For a value from 2^28 to 2^31 - 1, [writeVarInt] never returns,
    whatever the fuel and the bytes already written, although the first loop
    ends after four rounds: the emitting loop finds bit 7 set on every byte
    of a buffer that has turned negative. *)
Theorem writeVarInt_never_returns fuel data value :
  2 ^ 28 <= value < 2 ^ 31 ->
  writeVarInt fuel data value = None
  /\ exists buffer,
       writeVarInt_pack (S (S (S (S (S fuel))))) value (Int32.and value 0x7f)
       = Some buffer
       /\ buffer < 0.
Proof.
  intros H. split; [apply writeVarInt_hangs, H |].
  rewrite and_7f by lia.
  rewrite 3!pack_step by euclid. rewrite pack_step_wrap by euclid.
  rewrite pack_stop by euclid. eexists. split; [reflexivity | euclid].
Qed.

(** The tick of a note that starts after 300000 seconds at 120 BPM. *)
Lemma writeVarInt_never_returns_witness :
  startTick 120 far_note = 288000000
  /\ writeVarInt 1000 [] 288000000 = None.
Proof.
  split; [reflexivity |].
  apply (writeVarInt_never_returns 1000 [] 288000000). lia.
Defined.

(** X2.  For a negative value (down to -2^31), [writeVarInt] pushes one byte,
    the low seven bits of the value: the first loop is not entered, and the
    value cannot be read back. *)
Theorem writeVarInt_negative fuel data value :
  - 2 ^ 31 <= value < 0 ->
  writeVarInt (S fuel) data value = Some (data ++ [value mod 128])
  /\ vlq_decode [value mod 128] 0 = Some (value mod 128, [])
  /\ value mod 128 <> value.
Proof.
  intros H. split; [| split].
  - unfold writeVarInt. rewrite and_7f_int32 by lia.
    cbn [writeVarInt_pack]. rewrite sar_7_int32 by lia.
    destruct (Z.ltb_spec 0 (value / 128)) as [Hc | _]; [euclid |].
    cbn [obind]. apply emit_last. euclid.
  - rewrite decode_last by euclid. reflexivity.
  - euclid.
Qed.

(** The delta-time of a first event at tick -960. *)
Lemma writeVarInt_negative_witness :
  writeVarInt 1 [] (-960) = Some [64]
  /\ vlq_decode [(-960) mod 128] 0 = Some ((-960) mod 128, [])
  /\ (-960) mod 128 <> -960.
Proof.
  apply (writeVarInt_negative 0 [] (-960)). lia.
Defined.

(** * More of the code: the file read back *)

Ltac both_events tac :=
  unfold note_events;
  apply Forall_cons; [tac | apply Forall_cons; [tac | apply Forall_nil]].

Lemma vlq_groups_bytes value :
  0 <= value < 2 ^ 28 -> Forall is_byte (vlq_groups value).
Proof.
  intros H. unfold vlq_groups, is_byte.
  destruct (Z.ltb_spec value (2 ^ 7)); [repeat constructor; lia |].
  destruct (value <? 2 ^ 14); [repeat constructor; euclid |].
  destruct (value <? 2 ^ 21); repeat constructor; euclid.
Qed.

Lemma vlq_groups_length value : (1 <= length (vlq_groups value) <= 4)%nat.
Proof.
  unfold vlq_groups.
  destruct (value <? 2 ^ 7); [cbn; lia |].
  destruct (value <? 2 ^ 14); [cbn; lia |].
  destruct (value <? 2 ^ 21); cbn; lia.
Qed.

Lemma map_toUint8_id l : Forall is_byte l -> map toUint8 l = l.
Proof.
  induction 1 as [| b l Hb _ IH]; [reflexivity |].
  cbn [map]. rewrite IH. f_equal. unfold toUint8, is_byte in *. euclid.
Qed.

Lemma write_events_deltas fuel events : forall currentTime trackData,
  Forall (fun d => 0 <= d < 2 ^ 28) (delta_times currentTime events) ->
  write_events (S (S (S (S fuel)))) events currentTime trackData
  = Some (trackData ++ event_bytes currentTime events).
Proof.
  induction events as [| e rest IH]; intros cur data Hd.
  - cbn. now rewrite app_nil_r.
  - cbn [delta_times] in Hd. inversion Hd as [| ? ? He Hrest]; subst.
    cbn [write_events event_bytes]. rewrite writeVarInt_groups by lia.
    cbn [obind]. rewrite IH by assumption. now rewrite <- !app_assoc.
Qed.

Lemma delta_times_range events : forall cur bound,
  0 <= cur -> ascending ev_time cur events ->
  Forall (fun e => ev_time e < bound) events ->
  Forall (fun d => 0 <= d < bound) (delta_times cur events).
Proof.
  induction events as [| e rest IH]; intros cur bound Hcur Hasc Hall;
    cbn [delta_times]; [constructor |].
  destruct Hasc as [Hlo Hasc]. inversion Hall as [| ? ? He Hrest]; subst.
  constructor; [lia |]. apply IH; [lia | assumption | assumption].
Qed.

Lemma read_track_event_bytes events : forall fuel currentTime,
  (length events < fuel)%nat ->
  Forall (fun d => 0 <= d < 2 ^ 28) (delta_times currentTime events) ->
  Forall data_event events ->
  read_track fuel (map toUint8 (event_bytes currentTime events ++ end_of_track))
    currentTime
  = Some events.
Proof.
  induction events as [| e rest IH]; intros fuel cur Hfuel Hd Hbytes.
  - destruct fuel as [| fuel]; [cbn in Hfuel; lia |]. reflexivity.
  - destruct fuel as [| fuel]; [cbn in Hfuel; lia |].
    cbn [delta_times] in Hd. inversion Hd as [| ? ? He Hrest]; subst.
    inversion Hbytes as [| ? ? (Hn & Hv & Hoff) Hbrest]; subst.
    unfold data_byte in Hn, Hv.
    cbn [event_bytes]. rewrite <- !app_assoc, !map_app.
    rewrite (map_toUint8_id (vlq_groups _)) by (apply vlq_groups_bytes; lia).
    cbn [read_track]. rewrite decode_groups by lia.
    assert (Hmsg : map toUint8 (event_message e)
                   = match ev_type e with
                     | noteOn => [0x90; ev_note e; ev_velocity e]
                     | noteOff => [0x80; ev_note e; 0]
                     end).
    { unfold event_message.
      destruct (ev_type e); cbn [map]; unfold toUint8;
        repeat f_equal; try reflexivity; euclid. }
    rewrite Hmsg. rewrite <- map_app.
    replace (cur + (ev_time e - cur)) with (ev_time e) by lia.
    assert (Hdn : (0 <=? ev_note e) && (ev_note e <? 128) = true)
      by (apply andb_true_intro; split; [apply Z.leb_le | apply Z.ltb_lt]; lia).
    assert (Hdv : (0 <=? ev_velocity e) && (ev_velocity e <? 128) = true)
      by (apply andb_true_intro; split; [apply Z.leb_le | apply Z.ltb_lt]; lia).
    destruct e as [ty n v t]; cbn [ev_type ev_note ev_velocity ev_time] in *.
    destruct ty; cbn [app].
    + rewrite <- andb_assoc, Hdn, Hdv. cbn [Z.eqb Pos.eqb andb].
      rewrite IH; cbn [length] in *; try lia; try assumption. reflexivity.
    + specialize (Hoff eq_refl). subst v. rewrite Hdn.
      cbn [Z.eqb Pos.eqb andb Z.leb Z.ltb Z.compare].
      rewrite IH; cbn [length] in *; try lia; try assumption. reflexivity.
Qed.

Lemma getUint32_setUint32 v :
  0 <= v < 2 ^ 32 ->
  match setUint32 v with
  | [b0; b1; b2; b3] => getUint32 b0 b1 b2 b3
  | _ => -1
  end = v.
Proof. intros H. unfold setUint32, getUint32. euclid. Qed.

Lemma read_file_chunks track :
  0 <= Z.of_nat (length track) < 2 ^ 32 ->
  read_file (MThd ++ setUint32 6 ++ setUint16 0 ++ setUint16 1
               ++ setUint16 TICKS_PER_BEAT
               ++ MTrk ++ setUint32 (Z.of_nat (length track)) ++ track)
  = option_map (mkMidiFile 0 1 480) (read_track (S (length track)) track 0).
Proof.
  intros Hsize.
  pose proof (getUint32_setUint32 _ Hsize) as Hfield.
  change (setUint32 6) with [0; 0; 0; 6].
  change (setUint16 0) with [0; 0].
  change (setUint16 1) with [0; 1].
  change (setUint16 TICKS_PER_BEAT) with [1; 224].
  unfold setUint32 in *. cbv zeta in *. unfold MThd, MTrk.
  cbn [app]. unfold read_file.
  rewrite Hfield, (Z.eqb_refl (Z.of_nat (length track))).
  reflexivity.
Qed.

Lemma event_bytes_length events : forall cur,
  (4 * length events <= length (event_bytes cur events) <= 7 * length events)%nat.
Proof.
  induction events as [| e rest IH]; intros cur; cbn [event_bytes length]; [lia |].
  rewrite !length_app. specialize (IH (ev_time e)).
  pose proof (vlq_groups_length (ev_time e - cur)).
  assert (length (event_message e) = 3%nat)
    by (unfold event_message; destruct (ev_type e); reflexivity).
  lia.
Qed.

Lemma sorted_events_ascending bpm notes :
  Forall (fun n => 0 <= startTick bpm n /\ 0 <= endTick bpm n) notes ->
  ascending ev_time 0 (sorted_events bpm notes).
Proof.
  intros H. apply sort_by_ascending. apply note_list_events_Forall.
  eapply Forall_impl; [| exact H]. intros n [Hs He].
  both_events ltac:(cbn [ev_time]; assumption).
Qed.

Lemma sort_by_deltas events bound :
  Forall (fun e => 0 <= ev_time e < bound) events ->
  Forall (fun d => 0 <= d < bound) (delta_times 0 (sort_by ev_time events)).
Proof.
  intros H. apply delta_times_range; [lia | |].
  - apply sort_by_ascending. eapply Forall_impl; [| exact H]. cbn. lia.
  - apply sort_by_Forall. eapply Forall_impl; [| exact H]. cbn. lia.
Qed.

Lemma events_track_data_bytes fuel events :
  Forall (fun d => 0 <= d < 2 ^ 28) (delta_times 0 (sort_by ev_time events)) ->
  events_track_data (S (S (S (S fuel)))) events
  = Some (event_bytes 0 (sort_by ev_time events) ++ end_of_track).
Proof.
  intros H. unfold events_track_data. rewrite write_events_deltas by exact H.
  cbn [obind app]. rewrite writeVarInt_groups by lia. cbn [obind].
  rewrite <- app_assoc. reflexivity.
Qed.

Lemma events_track_length events :
  (4 * length events + 4
   <= length (event_bytes 0 (sort_by ev_time events) ++ end_of_track)
   <= 7 * length events + 4)%nat.
Proof.
  rewrite length_app. change (length end_of_track) with 4%nat.
  pose proof (event_bytes_length (sort_by ev_time events) 0) as Hb.
  rewrite sort_by_length in Hb. lia.
Qed.

(** The events of a note list in binary64: two for each note, with the
    pitch of the note. *)
Lemma note_list_events_pairs bpm notes : forall events,
  Binary64.note_list_events bpm notes = Some events ->
  length events = (2 * length notes)%nat
  /\ (Forall data_note notes -> Forall data_event events).
Proof.
  induction notes as [| n notes IH]; intros events H;
    cbn [Binary64.note_list_events] in H.
  - injection H as <-. split; [reflexivity | constructor].
  - unfold Binary64.note_events in H.
    destruct (JS.integer (Binary64.startTick bpm n)) as [start |];
      cbn [obind] in H; [| discriminate].
    destruct (JS.integer (Binary64.endTick bpm n)) as [stop |];
      cbn [obind] in H; [| discriminate].
    destruct (Binary64.note_list_events bpm notes) as [later |];
      cbn [obind] in H; [| discriminate].
    injection H as <-. destruct (IH later eq_refl) as [Hlen Hdata].
    split; [cbn [app length]; lia |].
    intros Hnotes. inversion Hnotes as [| ? ? (Hn & Hv) Hrest]; subst.
    unfold data_byte in Hn, Hv. cbn [app].
    apply Forall_cons; [| apply Forall_cons; [| apply Hdata, Hrest]];
      unfold data_event, data_byte; cbn [ev_note ev_velocity ev_type];
      (split; [lia | split; [lia | first [discriminate | intros _; reflexivity]]]).
Qed.

(** The file of a list of events in the range of the writer, read. *)
Lemma read_file_of_events events :
  Z.of_nat (length events) < 2 ^ 29 ->
  Forall (fun e => 0 <= ev_time e < 2 ^ 28) events ->
  Forall data_event events ->
  read_file (MThd ++ setUint32 6 ++ setUint16 0 ++ setUint16 1
               ++ setUint16 TICKS_PER_BEAT ++ MTrk
               ++ setUint32 (Z.of_nat (length (event_bytes 0 (sort_by ev_time events)
                                                 ++ end_of_track)))
               ++ map toUint8 (event_bytes 0 (sort_by ev_time events)
                               ++ end_of_track))
  = Some (mkMidiFile 0 1 480 (sort_by ev_time events)).
Proof.
  intros Hlen Hticks Hdata.
  pose proof (events_track_length events) as Hsize.
  rewrite <- (length_map toUint8) in Hsize.
  rewrite <- (length_map toUint8
                (event_bytes 0 (sort_by ev_time events) ++ end_of_track)).
  rewrite read_file_chunks by lia.
  rewrite read_track_event_bytes.
  - reflexivity.
  - rewrite length_map, length_app.
    pose proof (event_bytes_length (sort_by ev_time events) 0).
    change (length end_of_track) with 4%nat. lia.
  - apply sort_by_deltas, Hticks.
  - apply sort_by_Forall, Hdata.
Qed.

Lemma two_notes_events :
  Binary64.note_list_events 120 two_notes = Some two_notes_pushed.
Proof. vm_compute. reflexivity. Defined.

Lemma two_notes_data : Forall data_note two_notes.
Proof.
  unfold two_notes, data_note, data_byte.
  repeat constructor; cbn [Binary64.note Binary64.velocity]; lia.
Defined.

(** X3.  For fewer than 2^28 notes whose pitch and velocity are MIDI data
    bytes (0 to 127) and whose ticks, computed in binary64 as the code
    computes them, lie from 0 to 2^28 - 1, the encoder returns a file that
    reads back as format 0, one track, division 480 and the events sorted by
    tick, each with its type, pitch, velocity and absolute tick. *)
Theorem generateMidiFile_read_back fuel notes bpm events :
  Binary64.note_list_events bpm notes = Some events ->
  Forall (fun e => 0 <= ev_time e < 2 ^ 28) events ->
  Forall data_note notes ->
  Z.of_nat (length notes) < 2 ^ 28 ->
  exists bytes,
    Binary64.generateMidiFile (S (S (S (S fuel)))) notes bpm = Some bytes
    /\ read_file bytes = Some (mkMidiFile 0 1 480 (sort_by ev_time events)).
Proof.
  intros Hevents Hticks Hnotes Hlen.
  destruct (note_list_events_pairs bpm notes events Hevents) as [Hpairs Hdata].
  unfold Binary64.generateMidiFile, events_file. rewrite Hevents. cbn [obind].
  rewrite events_track_data_bytes by (apply sort_by_deltas, Hticks).
  cbn [obind]. eexists. split; [reflexivity |].
  apply read_file_of_events; [lia | exact Hticks | apply Hdata, Hnotes].
Qed.

(** Two notes given out of order: four events, sorted. *)
Lemma generateMidiFile_read_back_witness :
  exists bytes,
    Binary64.generateMidiFile 4 two_notes 120 = Some bytes
    /\ read_file bytes
       = Some (mkMidiFile 0 1 480
                 [mkMidiEvent noteOn 60 100 0; mkMidiEvent noteOn 64 90 480;
                  mkMidiEvent noteOff 60 0 480; mkMidiEvent noteOff 64 0 960]).
Proof.
  apply (generateMidiFile_read_back 0 two_notes 120 _ two_notes_events).
  - unfold two_notes_pushed. repeat constructor; cbn [ev_time]; lia.
  - exact two_notes_data.
  - cbn. lia.
Defined.

(** X4.  [downloadMidi] on a sketch whose tempo is absent, zero or [NaN]
    encodes at 120 BPM: when the notes have data bytes and their ticks at
    120 BPM, computed in binary64, lie from 0 to 2^28 - 1, the downloaded
    file reads back as those events sorted by tick. *)
Theorem downloadMidi_default_tempo fuel sketch events :
  (forall b, ms_bpm sketch = Some b -> JS.truthy b = false) ->
  Binary64.note_list_events 120 (ms_midiNotes sketch) = Some events ->
  Forall (fun e => 0 <= ev_time e < 2 ^ 28) events ->
  Forall data_note (ms_midiNotes sketch) ->
  Z.of_nat (length (ms_midiNotes sketch)) < 2 ^ 28 ->
  exists bytes,
    downloadMidi (S (S (S (S fuel)))) sketch = Some bytes
    /\ read_file bytes = Some (mkMidiFile 0 1 480 (sort_by ev_time events)).
Proof.
  intros Hbpm Hevents Hticks Hnotes Hlen. unfold downloadMidi.
  assert (Htempo : bpm_or_default (ms_bpm sketch) = 120%float).
  { unfold bpm_or_default. destruct (ms_bpm sketch) as [b |]; [| reflexivity].
    rewrite (Hbpm b eq_refl). reflexivity. }
  rewrite Htempo.
  destruct (note_list_events_pairs _ _ events Hevents) as [Hpairs Hdata].
  unfold Binary64.generateMidiFile, events_file. rewrite Hevents. cbn [obind].
  rewrite events_track_data_bytes by (apply sort_by_deltas, Hticks).
  cbn [obind]. eexists. split; [reflexivity |].
  apply read_file_of_events; [lia | exact Hticks | apply Hdata, Hnotes].
Qed.

(** A sketch whose tempo is 0. *)
Lemma downloadMidi_default_tempo_witness :
  exists bytes,
    downloadMidi 4 sketch_tempo_zero = Some bytes
    /\ read_file bytes
       = Some (mkMidiFile 0 1 480
                 [mkMidiEvent noteOn 60 100 0; mkMidiEvent noteOn 64 90 480;
                  mkMidiEvent noteOff 60 0 480; mkMidiEvent noteOff 64 0 960]).
Proof.
  apply (downloadMidi_default_tempo 0 sketch_tempo_zero two_notes_pushed).
  - intros b Hb. injection Hb as <-. vm_compute. reflexivity.
  - exact two_notes_events.
  - unfold two_notes_pushed. repeat constructor; cbn [ev_time]; lia.
  - exact two_notes_data.
  - cbn. lia.
Defined.

(** * More of the code: the order of the events and the return of the encoder *)

Section StableSortSorted.
Context {A : Type} (key : A -> Z).

Lemma insert_by_sorted a l :
  StronglySorted (fun x y => key x <= key y) l ->
  StronglySorted (fun x y => key x <= key y) (insert_by key a l).
Proof.
  induction 1 as [| h t Ht IH Hh]; cbn [insert_by].
  - repeat constructor.
  - destruct (Z.leb_spec (key a - key h) 0) as [Hle | Hgt].
    + constructor; [constructor; assumption |].
      constructor; [lia |]. eapply Forall_impl; [| exact Hh]. cbn. lia.
    + constructor; [exact IH |].
      apply Forall_forall. intros x Hx. apply insert_by_In in Hx.
      destruct Hx as [-> | Hx]; [lia |]. rewrite Forall_forall in Hh. auto.
Qed.

Lemma sort_by_sorted l :
  StronglySorted (fun x y => key x <= key y) (sort_by key l).
Proof.
  induction l as [| h t IH]; cbn [sort_by]; [constructor |].
  apply insert_by_sorted, IH.
Qed.
End StableSortSorted.

Lemma delta_times_nonneg events : forall cur,
  ascending ev_time cur events ->
  Forall (fun d => 0 <= d) (delta_times cur events).
Proof.
  induction events as [| e rest IH]; intros cur Hasc; cbn [delta_times];
    [constructor |].
  destruct Hasc as [Hlo Hasc]. constructor; [lia | apply IH, Hasc].
Qed.

(** X5.  The events the track loop walks are the pushed events, none lost and
    none added, in non-decreasing tick order; when no tick is negative, no
    delta-time handed to the writer is negative. *)
Theorem sorted_events_order bpm notes :
  Permutation (sorted_events bpm notes) (note_list_events bpm notes)
  /\ StronglySorted tick_le (sorted_events bpm notes)
  /\ (Forall (fun n => 0 <= startTick bpm n /\ 0 <= endTick bpm n) notes ->
      Forall (fun d => 0 <= d) (delta_times 0 (sorted_events bpm notes))).
Proof.
  split; [apply sort_by_perm |]. split; [apply (sort_by_sorted ev_time) |].
  intros H. apply delta_times_nonneg, sorted_events_ascending, H.
Qed.

Lemma write_events_hangs events : forall fuel currentTime trackData,
  Forall (fun d => 0 <= d < 2 ^ 31) (delta_times currentTime events) ->
  Exists (fun d => 2 ^ 28 <= d) (delta_times currentTime events) ->
  write_events fuel events currentTime trackData = None.
Proof.
  induction events as [| e rest IH]; intros fuel cur data Hall Hex;
    cbn [delta_times] in *; [inversion Hex |].
  inversion Hall as [| ? ? He Hrest]; subst.
  cbn [write_events].
  inversion Hex as [? ? Hbad | ? ? Hlater]; subst.
  - rewrite writeVarInt_hangs by lia. reflexivity.
  - destruct (writeVarInt fuel data (ev_time e - cur)) as [td |]; [| reflexivity].
    cbn [obind]. apply IH; assumption.
Qed.

(** X6.  For notes whose ticks, computed in binary64 as the code computes
    them, lie from 0 to 2^31 - 1, the encoder returns exactly when every
    delta-time between consecutive sorted events (the first one counted from
    tick 0) is below 2^28: then four rounds of fuel are enough, and otherwise
    no amount of fuel makes it return. *)
Theorem generateMidiFile_returns_iff notes bpm events :
  Binary64.note_list_events bpm notes = Some events ->
  Forall (fun e => 0 <= ev_time e < 2 ^ 31) events ->
  (Forall (fun d => d < 2 ^ 28) (delta_times 0 (sort_by ev_time events)) ->
   forall fuel, exists bytes,
     Binary64.generateMidiFile (S (S (S (S fuel)))) notes bpm = Some bytes)
  /\ (Exists (fun d => 2 ^ 28 <= d) (delta_times 0 (sort_by ev_time events)) ->
      forall fuel, Binary64.generateMidiFile fuel notes bpm = None).
Proof.
  intros Hevents Hticks.
  pose proof (sort_by_deltas events (2 ^ 31) Hticks) as Hd.
  unfold Binary64.generateMidiFile, events_file. rewrite Hevents. cbn [obind].
  split.
  - intros Hsmall fuel.
    rewrite events_track_data_bytes; [cbn [obind]; eauto |].
    rewrite Forall_forall in *. intros d Hin.
    specialize (Hd d Hin). specialize (Hsmall d Hin). lia.
  - intros Hbig fuel. unfold events_track_data.
    rewrite write_events_hangs by assumption. reflexivity.
Qed.

(** The note whose quotient is exactly 268435455.5 at 90 BPM: its note-on is
    at tick 2^28, and no amount of fuel is enough. *)
Lemma generateMidiFile_returns_iff_witness :
  Binary64.note_list_events 90 [boundary_note]
  = Some [mkMidiEvent noteOn 60 100 (2 ^ 28);
          mkMidiEvent noteOff 60 0 (2 ^ 28 + 720)]
  /\ forall fuel, Binary64.generateMidiFile fuel [boundary_note] 90 = None.
Proof.
  assert (H : Binary64.note_list_events 90 [boundary_note]
              = Some [mkMidiEvent noteOn 60 100 (2 ^ 28);
                      mkMidiEvent noteOff 60 0 (2 ^ 28 + 720)])
    by (vm_compute; reflexivity).
  split; [exact H |].
  apply (generateMidiFile_returns_iff [boundary_note] 90 _ H).
  - repeat constructor; cbn [ev_time]; lia.
  - apply Exists_cons_hd. cbn [ev_time]. lia.
Defined.

(** X7.  For notes whose ticks, computed in binary64 as the code computes
    them, lie from 0 to 2^28 - 1, the file has between 26 + 8 n and
    26 + 14 n bytes, n being the number of notes: the 22 bytes of the
    headers, the 4 of the end of track, and 4 to 7 for each of the two events
    of a note. *)
Theorem generateMidiFile_size fuel notes bpm events :
  Binary64.note_list_events bpm notes = Some events ->
  Forall (fun e => 0 <= ev_time e < 2 ^ 28) events ->
  exists bytes,
    Binary64.generateMidiFile (S (S (S (S fuel)))) notes bpm = Some bytes
    /\ (26 + 8 * length notes <= length bytes <= 26 + 14 * length notes)%nat.
Proof.
  intros Hevents Hticks.
  destruct (note_list_events_pairs bpm notes events Hevents) as [Hpairs _].
  unfold Binary64.generateMidiFile, events_file. rewrite Hevents. cbn [obind].
  rewrite events_track_data_bytes by (apply sort_by_deltas, Hticks).
  cbn [obind]. eexists. split; [reflexivity |].
  pose proof (events_track_length events) as Hlen.
  rewrite !length_app, length_map. cbn [MThd MTrk setUint32 setUint16 length].
  lia.
Qed.

Lemma generateMidiFile_size_witness :
  exists bytes,
    Binary64.generateMidiFile 4 two_notes 120 = Some bytes
    /\ (26 + 8 * 2 <= length bytes <= 26 + 14 * 2)%nat.
Proof.
  apply (generateMidiFile_size 0 two_notes 120 _ two_notes_events).
  unfold two_notes_pushed. repeat constructor; cbn [ev_time]; lia.
Defined.

(** * More of the code: the window of the tap tempo tracker *)

Lemma filter_sorted {A : Type} (R : A -> A -> Prop) (f : A -> bool) l :
  StronglySorted R l -> StronglySorted R (filter f l).
Proof.
  induction 1 as [| h t Ht IH Hh]; cbn [filter]; [constructor |].
  destruct (f h); [| exact IH].
  constructor; [exact IH |].
  apply Forall_forall. intros x Hx. apply filter_In in Hx.
  rewrite Forall_forall in Hh. apply Hh, Hx.
Qed.

Lemma filter_prefix_sorted {A : Type} (R : A -> A -> Prop) (f : A -> bool) l r :
  StronglySorted R (l ++ r) -> StronglySorted R (filter f l ++ r).
Proof.
  induction l as [| h t IH]; intros Hs; cbn [filter app] in *; [exact Hs |].
  inversion Hs as [| ? ? Ht Hh]; subst.
  destruct (f h); [| apply IH, Ht].
  cbn [app]. constructor; [apply IH, Ht |].
  apply Forall_forall. intros x Hx. rewrite Forall_forall in Hh. apply Hh.
  apply in_app_or in Hx. apply in_or_app.
  destruct Hx as [Hx | Hx]; [left; apply filter_In in Hx; tauto | right; exact Hx].
Qed.

(** On an ascending list the fresh timestamps are a suffix. *)
Lemma kept_suffix now l :
  StronglySorted Z.le l ->
  exists dropped,
    l = dropped ++ filter (fun t => now - t <? 3000) l
    /\ Forall (fun t => 3000 <= now - t) dropped.
Proof.
  induction 1 as [| h t Ht IH Hh];
    [exists []; split; [reflexivity | constructor] |].
  cbn [filter]. destruct (Z.ltb_spec (now - h) 3000) as [Hfresh | Hstale].
  - exists []. split; [| constructor]. cbn [app]. f_equal.
    symmetry. apply forallb_filter_id. apply forallb_forall. intros x Hx.
    rewrite Forall_forall in Hh. specialize (Hh x Hx). apply Z.ltb_lt. lia.
  - destruct IH as (dropped & Heq & Hd). exists (h :: dropped). split.
    + cbn [app]. f_equal. exact Heq.
    + constructor; assumption.
Qed.

Lemma sorted_app_last l now :
  StronglySorted Z.le l -> Forall (fun t => t <= now) l ->
  StronglySorted Z.le (l ++ [now]).
Proof.
  induction 1 as [| h t Ht IH Hh]; intros Hle; cbn [app].
  - repeat constructor.
  - inversion Hle as [| ? ? Hhn Htn]; subst. constructor; [apply IH, Htn |].
    apply Forall_app. split; [exact Hh | repeat constructor; exact Hhn].
Qed.

Lemma handleTap_taps now st :
  taps (handleTap now st) = kept_taps now st ++ [now].
Proof.
  unfold handleTap. rewrite newTaps_kept.
  destruct (1 <? length (kept_taps now st ++ [now]))%nat; reflexivity.
Qed.

(** X9.  When the timestamps of the window are in ascending order and none is
    after the new tap, the window stays in ascending order after the tap, every
    timestamp in it is less than 3000 ms old, and what was dropped is a prefix
    of the window: the oldest timestamps, each at least 3000 ms old. *)
Theorem handleTap_monotone_clock now st :
  StronglySorted Z.le (taps st) -> Forall (fun t => t <= now) (taps st) ->
  StronglySorted Z.le (taps (handleTap now st))
  /\ Forall (fun t => 0 <= now - t < 3000) (taps (handleTap now st))
  /\ exists dropped,
       taps st ++ [now] = dropped ++ taps (handleTap now st)
       /\ Forall (fun t => 3000 <= now - t) dropped.
Proof.
  intros Hsorted Hpast. rewrite handleTap_taps. unfold kept_taps.
  split; [| split].
  - apply sorted_app_last.
    + apply filter_sorted, Hsorted.
    + apply Forall_forall. intros t Ht. apply filter_In in Ht.
      rewrite Forall_forall in Hpast. apply Hpast, Ht.
  - apply Forall_app. split.
    + apply Forall_forall. intros t Ht. apply filter_In in Ht.
      destruct Ht as [Hin Hfresh]. apply Z.ltb_lt in Hfresh.
      rewrite Forall_forall in Hpast. specialize (Hpast t Hin). lia.
    + repeat constructor; lia.
  - destruct (kept_suffix now (taps st) Hsorted) as (dropped & Heq & Hd).
    exists dropped. split; [| exact Hd].
    rewrite app_assoc. f_equal. exact Heq.
Qed.

(** Taps at 0, 500 and 1000, then a tap at 3200: the first one is dropped. *)
Lemma handleTap_monotone_clock_witness :
  taps (handleTap 3200 (mkTapState [0; 500; 1000] 120%float)) = [500; 1000; 3200]
  /\ StronglySorted Z.le (taps (handleTap 3200 (mkTapState [0; 500; 1000] 120%float)))
  /\ Forall (fun t => 0 <= 3200 - t < 3000)
       (taps (handleTap 3200 (mkTapState [0; 500; 1000] 120%float)))
  /\ exists dropped,
       [0; 500; 1000] ++ [3200]
       = dropped ++ taps (handleTap 3200 (mkTapState [0; 500; 1000] 120%float))
       /\ Forall (fun t => 3000 <= 3200 - t) dropped.
Proof.
  split; [reflexivity |].
  apply (handleTap_monotone_clock 3200 (mkTapState [0; 500; 1000] 120%float)).
  - cbn [taps]. repeat constructor; lia.
  - cbn [taps]. repeat constructor; lia.
Defined.

Lemma strictly_ascending_length l : forall lo hi,
  StronglySorted Z.lt l -> Forall (fun t => lo < t <= hi) l ->
  Z.of_nat (length l) <= Z.max 0 (hi - lo).
Proof.
  induction l as [| h t IH]; intros lo hi Hs Hr; cbn [length]; [lia |].
  inversion Hs as [| ? ? Ht Hh]; subst. inversion Hr as [| ? ? Hhr Htr]; subst.
  assert (Htail : Forall (fun x => h < x <= hi) t).
  { rewrite Forall_forall in *. intros x Hx.
    specialize (Hh x Hx). specialize (Htr x Hx). lia. }
  specialize (IH h hi Ht Htail). lia.
Qed.

Lemma before_last_lt l now x :
  StronglySorted Z.lt (l ++ [now]) -> In x l -> x < now.
Proof.
  induction l as [| h l IH]; intros Hs Hin; [destruct Hin |].
  cbn [app] in Hs. inversion Hs as [| ? ? Hl Hh]; subst.
  destruct Hin as [-> | Hin]; [| apply IH; assumption].
  rewrite Forall_forall in Hh. apply Hh, in_or_app. right. left. reflexivity.
Qed.

Lemma sorted_app_l {A : Type} (R : A -> A -> Prop) (l r : list A) :
  StronglySorted R (l ++ r) -> StronglySorted R l.
Proof.
  induction l as [| h l IH]; intros Hs; [constructor |].
  cbn [app] in Hs. inversion Hs as [| ? ? Hl Hh]; subst.
  constructor; [apply IH, Hl |].
  rewrite Forall_forall in *. intros x Hx. apply Hh, in_or_app. left. exact Hx.
Qed.

Lemma handleTap_window_size now st :
  StronglySorted Z.lt (taps st ++ [now]) ->
  (length (taps (handleTap now st)) <= 3000)%nat.
Proof.
  intros Hsorted. unfold handleTap.
  set (newTaps := filter (fun t => now - t <? 3000) (taps st ++ [now])).
  assert (Hlen : Z.of_nat (length newTaps) <= Z.max 0 (now - (now - 3000))).
  { apply strictly_ascending_length.
    - apply filter_sorted, Hsorted.
    - apply Forall_forall. intros t Ht. apply filter_In in Ht.
      destruct Ht as [Hin Hfresh]. apply Z.ltb_lt in Hfresh.
      split; [lia |]. apply in_app_or in Hin.
      destruct Hin as [Hin | [<- | []]]; [| lia].
      pose proof (before_last_lt _ _ _ Hsorted Hin). lia. }
  destruct (1 <? length newTaps)%nat; cbn [taps]; lia.
Qed.

Lemma tap_all_window_size times : forall st,
  StronglySorted Z.lt (taps st ++ times) ->
  (length (taps st) <= 3000)%nat ->
  (length (taps (tap_all times st)) <= 3000)%nat.
Proof.
  induction times as [| t r IH]; intros st Hs Hlen; [exact Hlen |].
  cbn [tap_all fold_left]. apply IH.
  - rewrite handleTap_taps. unfold kept_taps. rewrite <- app_assoc. cbn [app].
    apply filter_prefix_sorted, Hs.
  - apply handleTap_window_size.
    replace (taps st ++ t :: r) with ((taps st ++ [t]) ++ r) in Hs
      by (rewrite <- app_assoc; reflexivity).
    exact (sorted_app_l _ _ _ Hs).
Qed.

(** X10.  Whatever the number of taps, when they come at strictly increasing
    milliseconds the window never holds more than 3000 timestamps. *)
Theorem tap_run_window_bounded times :
  StronglySorted Z.lt times ->
  (length (taps (tap_all times initial_taps)) <= 3000)%nat.
Proof.
  intros Hs. apply tap_all_window_size; [exact Hs | cbn; lia].
Qed.

Lemma tap_run_window_bounded_witness :
  taps (tap_all [0; 500; 1000; 4000; 4400] initial_taps) = [4000; 4400]
  /\ (length (taps (tap_all [0; 500; 1000; 4000; 4400]%Z initial_taps)) <= 3000)%nat.
Proof.
  split; [reflexivity |].
  apply (tap_run_window_bounded [0; 500; 1000; 4000; 4400]).
  repeat constructor; lia.
Defined.

(** X11.  A tap that comes 3000 ms or more after every timestamp of the
    window leaves the window with that tap alone and does not touch the BPM:
    the tempo of before the pause stays the one shown. *)
Theorem handleTap_after_pause now st :
  Forall (fun t => 3000 <= now - t) (taps st) ->
  handleTap now st = mkTapState [now] (bpm st)
  /\ shown_bpm (handleTap now st) = shown_bpm st.
Proof.
  intros Hstale.
  assert (Hk : kept_taps now st = []).
  { unfold kept_taps. induction Hstale as [| t l Ht _ IH]; [reflexivity |].
    cbn [filter]. destruct (Z.ltb_spec (now - t) 3000); [lia | exact IH]. }
  assert (Hst : handleTap now st = mkTapState [now] (bpm st)).
  { unfold handleTap. rewrite newTaps_kept, Hk. reflexivity. }
  split; [exact Hst |]. rewrite Hst. reflexivity.
Qed.

(** Four taps at 120 BPM, then a tap ten seconds later: 120 is still shown. *)
Lemma handleTap_after_pause_witness :
  handleTap 11500 (mkTapState [0; 500; 1000; 1500] 120%float)
  = mkTapState [11500] 120%float
  /\ shown_bpm (handleTap 11500 (mkTapState [0; 500; 1000; 1500] 120%float))
     = shown_bpm (mkTapState [0; 500; 1000; 1500] 120%float).
Proof.
  apply (handleTap_after_pause 11500 (mkTapState [0; 500; 1000; 1500] 120%float)).
  cbn [taps]. repeat constructor; lia.
Defined.

(** * More of the code: the loops of the pitch estimator *)

Lemma trim_r1_range buf :
  0 <= trim_r1 buf
  /\ (2 * trim_r1 buf < Z.of_nat (length buf) \/ trim_r1 buf = 0).
Proof.
  destruct (trim_r1_first_quiet buf) as [(H0 & H1 & _) | [-> _]]; lia.
Qed.

Lemma trim_r2_range buf :
  (2 <= length buf)%nat ->
  Z.of_nat (length buf) <= 2 * trim_r2 buf
  /\ trim_r2 buf <= Z.of_nat (length buf) - 1.
Proof.
  intros Hsize.
  destruct (trim_r2_last_quiet buf) as [(i & Hi & H2 & -> & _) | [-> _]]; lia.
Qed.

Lemma slice_split {A : Type} (buf : list A) s e :
  0 <= s <= e -> e <= Z.of_nat (length buf) ->
  exists before after,
    buf = before ++ JS.slice buf s e ++ after
    /\ Z.of_nat (length before) = s
    /\ Z.of_nat (length (JS.slice buf s e)) = e - s
    /\ Z.of_nat (length after) = Z.of_nat (length buf) - e.
Proof.
  intros Hs He. unfold JS.slice.
  destruct (Z.ltb_spec s 0); [lia |]. destruct (Z.ltb_spec e 0); [lia |].
  rewrite !Z.min_l by lia.
  exists (firstn (Z.to_nat s) buf),
         (skipn (Z.to_nat (e - s)) (skipn (Z.to_nat s) buf)).
  split; [now rewrite firstn_skipn, firstn_skipn |].
  rewrite length_firstn, length_firstn, !length_skipn. lia.
Qed.

(** X12.  On a frame of two samples or more, the region the autocorrelation
    runs on is a contiguous part of the frame that is not empty, starts in
    the first half, ends in the second half, and leaves out at least the last
    sample of the frame. *)
Theorem trimmed_region buf :
  (2 <= length buf)%nat ->
  exists before after,
    buf = before ++ bufSlice buf ++ after
    /\ (2 * length before < length buf)%nat
    /\ (1 <= length after)%nat /\ (2 * length after <= length buf)%nat
    /\ (1 <= length (bufSlice buf))%nat.
Proof.
  intros Hsize.
  pose proof (trim_r1_range buf) as [H1 H1'].
  pose proof (trim_r2_range buf Hsize) as [H2 H2'].
  destruct (slice_split buf (trim_r1 buf) (trim_r2 buf)) as
    (before & after & Hbuf & Hb & Hm & Ha); [lia | lia |].
  exists before, after. unfold bufSlice. split; [exact Hbuf |]. lia.
Qed.

Lemma trimmed_region_witness :
  bufSlice frame_silent_middle = [0; 0; 0]%float
  /\ exists before after,
    frame_silent_middle = before ++ bufSlice frame_silent_middle ++ after
    /\ (2 * length before < length frame_silent_middle)%nat
    /\ (1 <= length after)%nat
    /\ (2 * length after <= length frame_silent_middle)%nat
    /\ (1 <= length (bufSlice frame_silent_middle))%nat.
Proof.
  split; [vm_compute; reflexivity |].
  apply (trimmed_region frame_silent_middle). cbn. lia.
Defined.

Lemma skip_descending_first c : forall fuel d d',
  skip_descending fuel c d = Some d' ->
  (forall i, d <= i < d' -> JS.gt (JS.rd c i) (JS.rd c (i + 1)) = true)
  /\ JS.gt (JS.rd c d') (JS.rd c (d' + 1)) = false
  /\ d <= d'.
Proof.
  induction fuel as [| fuel IH]; intros d d' H; [discriminate |].
  cbn [skip_descending] in H.
  destruct (JS.gt (JS.rd c d) (JS.rd c (d + 1))) eqn:Hgt.
  - apply IH in H. destruct H as (Hrun & Hstop & Hle).
    split; [| split; [exact Hstop | lia]].
    intros i Hi. destruct (Z.eq_dec i d) as [-> | Hne]; [exact Hgt |].
    apply Hrun. lia.
  - injection H as <-. split; [intros i Hi; lia |]. split; [exact Hgt | lia].
Qed.

(** X13.  The skip loop returns the length of the longest strictly decreasing
    run at the start of the correlation buffer: every comparison before the
    index it returns holds, and the one at that index does not (it fails at
    the latest at the last element, whose successor is [undefined]). *)
Theorem skip_descending_run c :
  exists d,
    skip_descending (S (length c)) c 0 = Some d
    /\ (forall i, 0 <= i < d -> JS.gt (JS.rd c i) (JS.rd c (i + 1)) = true)
    /\ JS.gt (JS.rd c d) (JS.rd c (d + 1)) = false
    /\ (d = 0 \/ d < Z.of_nat (length c)).
Proof.
  destruct (skip_descending_exits c (S (length c)) 0) as (d & Hd & Hle & Hb);
    try lia.
  exists d. split; [exact Hd |].
  destruct (skip_descending_first c _ _ _ Hd) as (Hrun & Hstop & _).
  repeat split; assumption.
Qed.

(** X14.  From a skip index [d] that is not negative, the peak lag is -1
    exactly when no correlation value from [d] on is above -1.  Otherwise it
    is an index from [d] on whose value is above -1 and is the first of the
    largest: no value from [d] to the peak is at or above it, and no value
    after the peak is above it. *)
Theorem peak_lag_first_maximum c d :
  0 <= d ->
  (peak_lag c d = -1
   /\ forall j, d <= j < Z.of_nat (length c) ->
                JS.gt (JS.rd c j) (Some (-1)%float) = false)
  \/ (d <= peak_lag c d < Z.of_nat (length c)
      /\ JS.gt (JS.rd c (peak_lag c d)) (Some (-1)%float) = true
      /\ (forall j, d <= j < peak_lag c d ->
                    JS.ge (JS.rd c j) (JS.rd c (peak_lag c d)) = false)
      /\ (forall j, peak_lag c d < j < Z.of_nat (length c) ->
                    JS.gt (JS.rd c j) (JS.rd c (peak_lag c d)) = false)).
Proof.
  intros Hd. unfold peak_lag.
  destruct (Z.le_gt_cases d (Z.of_nat (length c))) as [Hle | Hgt].
  - destruct (find_max_first c (Z.to_nat (Z.of_nat (length c) - d)) d
                (-1)%float (-1) Hd)
      as [[Heq Hno] | (p & M & Heq & Hp & Hrd & Hlt & Hpre & Hpost)];
      rewrite Heq; cbn [snd].
    + left. split; [reflexivity |]. intros j Hj. apply Hno. lia.
    + right. rewrite Hrd. split; [lia |]. split; [exact Hlt |].
      split; [exact Hpre |]. intros j Hj. apply Hpost. lia.
  - left. replace (Z.to_nat (Z.of_nat (length c) - d)) with 0%nat by lia.
    cbn [find_max snd]. split; [reflexivity | intros j Hj; lia].
Qed.

(** A buffer with the same value at lags 2 and 4: the peak is lag 2. *)
Lemma peak_lag_first_maximum_witness :
  peak_lag [4; 1; 3; 2; 3]%float 1 = 2
  /\ ((peak_lag [4; 1; 3; 2; 3]%float 1 = -1
       /\ forall j, 1 <= j < 5 ->
                    JS.gt (JS.rd [4; 1; 3; 2; 3]%float j) (Some (-1)%float) = false)
      \/ (1 <= peak_lag [4; 1; 3; 2; 3]%float 1 < 5
          /\ JS.gt (JS.rd [4; 1; 3; 2; 3]%float
                      (peak_lag [4; 1; 3; 2; 3]%float 1))
                   (Some (-1)%float) = true
          /\ (forall j, 1 <= j < peak_lag [4; 1; 3; 2; 3]%float 1 ->
                        JS.ge (JS.rd [4; 1; 3; 2; 3]%float j)
                              (JS.rd [4; 1; 3; 2; 3]%float
                                 (peak_lag [4; 1; 3; 2; 3]%float 1)) = false)
          /\ (forall j, peak_lag [4; 1; 3; 2; 3]%float 1 < j < 5 ->
                        JS.gt (JS.rd [4; 1; 3; 2; 3]%float j)
                              (JS.rd [4; 1; 3; 2; 3]%float
                                 (peak_lag [4; 1; 3; 2; 3]%float 1)) = false))).
Proof.
  split; [vm_compute; reflexivity |].
  apply (peak_lag_first_maximum [4; 1; 3; 2; 3]%float 1). lia.
Defined.

(** * More of the code: the tuner helpers and the note converter

    [Math.log] and [Math.pow] are read on real numbers, where they are exact.
    The statements are kept to what binary64 rounding leaves in place: they
    range over the frequencies of the MIDI note numbers 0 to 127, where
    [Math.pow] neither overflows nor underflows, and a bound on the cents
    leaves one cent on each side for the rounding of [Math.log] next to a
    half-semitone boundary. *)

Module NoteMapperMore.

Import NoteMapper NoteMapperFacts.
Local Open Scope R_scope.

Lemma Int_part_bounds x : IZR (Int_part x) <= x < IZR (Int_part x) + 1.
Proof.
  pose proof (base_Int_part x) as [H1 H2]. lra.
Qed.

Lemma Int_part_le x y : x <= y -> (Int_part x <= Int_part y)%Z.
Proof.
  intros H. pose proof (Int_part_bounds x). pose proof (Int_part_bounds y).
  apply Z.lt_succ_r. apply lt_IZR. rewrite succ_IZR. lra.
Qed.

Lemma Int_part_plus_IZR x k : Int_part (x + IZR k) = (Int_part x + k)%Z.
Proof.
  symmetry. apply Int_part_spec. rewrite plus_IZR.
  pose proof (Int_part_bounds x). lra.
Qed.

Lemma semitones_frequency m :
  semitones (frequencyFromNoteNumber m) = IZR m - 69.
Proof.
  unfold semitones, frequencyFromNoteNumber.
  replace (440 * Rpower 2 ((IZR m - 69) / 12) / 440)
    with (Rpower 2 ((IZR m - 69) / 12)) by field.
  unfold Rpower. rewrite ln_exp. pose proof ln_2_pos. field. lra.
Qed.

Lemma noteFromPitch_semitones hz :
  noteFromPitch hz = (Math_round (semitones hz) + 69)%Z.
Proof. reflexivity. Qed.

Lemma cents_semitones hz note :
  0 < hz ->
  centsOffFromPitch hz note
  = Math_floor (100 * (semitones hz - (IZR note - 69))).
Proof.
  intros Hhz. unfold centsOffFromPitch, semitones, frequencyFromNoteNumber.
  f_equal.
  assert (Hp : 0 < Rpower 2 ((IZR note - 69) / 12)) by apply exp_pos.
  replace (hz / (440 * Rpower 2 ((IZR note - 69) / 12)))
    with ((hz / 440) * / Rpower 2 ((IZR note - 69) / 12)) by (field; lra).
  rewrite ln_mult; [| lra | apply Rinv_0_lt_compat, Hp].
  rewrite ln_Rinv by exact Hp.
  unfold Rpower. rewrite ln_exp. pose proof ln_2_pos. field. lra.
Qed.

Lemma semitones_le hz1 hz2 :
  0 < hz1 -> hz1 <= hz2 -> semitones hz1 <= semitones hz2.
Proof.
  intros Hpos Hle. unfold semitones. pose proof ln_2_pos as Hln.
  assert (Hl : ln (hz1 / 440) <= ln (hz2 / 440)).
  { destruct Hle as [Hlt | ->]; [| lra].
    left. apply ln_increasing; [apply Rdiv_lt_0_compat; lra |].
    apply Rmult_lt_compat_r; [lra | exact Hlt]. }
  apply Rmult_le_compat_l; [lra |].
  apply Rmult_le_compat_r; [left; apply Rinv_0_lt_compat, Hln | exact Hl].
Qed.






(** X15.  The tuner helpers are inverse to each other on the MIDI note
    numbers: the frequency of note number [m], from 0 to 127, is mapped back
    to [m], with a deviation of 0 cents. *)
Theorem frequency_note_inverse m :
  (0 <= m <= 127)%Z ->
  noteFromPitch (frequencyFromNoteNumber m) = m
  /\ centsOffFromPitch (frequencyFromNoteNumber m) m = 0%Z.
Proof.
  intros _. split.
  - rewrite noteFromPitch_semitones, semitones_frequency.
    rewrite <- minus_IZR, Math_round_IZR. lia.
  - rewrite cents_semitones by apply frequency_pos.
    rewrite semitones_frequency. unfold Math_floor. symmetry.
    apply Int_part_spec. lra.
Qed.

Lemma frequency_note_inverse_witness :
  noteFromPitch (frequencyFromNoteNumber 69) = 69%Z
  /\ centsOffFromPitch (frequencyFromNoteNumber 69) 69 = 0%Z.
Proof.
  apply (frequency_note_inverse 69). lia.
Defined.



(** X17.  A higher frequency is never mapped to a lower note number. *)
Theorem noteFromPitch_monotone hz1 hz2 :
  0 < hz1 -> hz1 <= hz2 -> (noteFromPitch hz1 <= noteFromPitch hz2)%Z.
Proof.
  intros Hpos Hle. rewrite !noteFromPitch_semitones. unfold Math_round.
  apply Z.add_le_mono_r. apply Int_part_le.
  pose proof (semitones_le _ _ Hpos Hle). lra.
Qed.

Lemma noteFromPitch_monotone_witness :
  (noteFromPitch 440 <= noteFromPitch 466)%Z.
Proof.
  apply (noteFromPitch_monotone 440 466); lra.
Defined.





End NoteMapperMore.

(** * More of the code: the recorder *)

Module RecorderFacts.

Import Stdlib.Strings.String Stdlib.Strings.Ascii Recorder.

Lemma toString_inj a b : toString a = toString b -> a = b.
Proof.
  unfold toString. intros H.
  apply (f_equal DecimalString.NilEmpty.uint_of_string) in H.
  rewrite !DecimalString.NilEmpty.usu in H.
  injection H as H. apply (f_equal Nat.of_uint) in H.
  now rewrite !DecimalNat.Unsigned.of_to in H.
Qed.

Lemma append_same_length (s1 s2 t1 t2 : string) :
  String.length s1 = String.length s2 ->
  append s1 t1 = append s2 t2 -> s1 = s2 /\ t1 = t2.
Proof.
  revert s2. induction s1 as [| c s1 IH]; intros [| d s2] Hlen H;
    cbn in Hlen; try discriminate.
  - cbn in H. split; [reflexivity | exact H].
  - cbn in H. injection H as -> H. injection Hlen as Hlen.
    destruct (IH s2 Hlen H) as [-> ->]. split; reflexivity.
Qed.

Lemma append_length (s t : string) :
  String.length (append s t) = (String.length s + String.length t)%nat.
Proof. induction s as [| c s IH]; cbn; [reflexivity | now rewrite IH]. Qed.

Lemma two_digits s :
  (s < 60)%nat ->
  String.length (padStart 2 (toString s)) = 2%nat
  /\ seconds_of (padStart 2 (toString s)) = Some s.
Proof.
  intros H.
  assert (Hall : forallb (fun s =>
             Nat.eqb (String.length (padStart 2 (toString s))) 2
             && match seconds_of (padStart 2 (toString s)) with
                | Some r => Nat.eqb r s
                | None => false
                end) (seq 0 60) = true) by (vm_compute; reflexivity).
  rewrite forallb_forall in Hall. specialize (Hall s).
  assert (Hin : In s (seq 0 60)) by (apply in_seq; lia).
  apply Hall in Hin. apply andb_prop in Hin. destruct Hin as [H1 H2].
  apply Nat.eqb_eq in H1. split; [exact H1 |].
  destruct (seconds_of (padStart 2 (toString s))) as [r |]; [| discriminate].
  apply Nat.eqb_eq in H2. now subst.
Qed.

(** X22.  Two different numbers of seconds are never shown as the same
    text. *)
Theorem formatTime_distinct a b :
  formatTime a = formatTime b -> a = b.
Proof.
  unfold formatTime. cbv zeta. intros H.
  pose proof (Nat.div_mod_eq a 60) as Da. pose proof (Nat.div_mod_eq b 60) as Db.
  assert (Ha : (a mod 60 < 60)%nat) by (apply Nat.mod_upper_bound; lia).
  assert (Hb : (b mod 60 < 60)%nat) by (apply Nat.mod_upper_bound; lia).
  remember (a mod 60)%nat as sa. remember (b mod 60)%nat as sb.
  remember (a / 60)%nat as ma. remember (b / 60)%nat as mb.
  destruct (two_digits _ Ha) as [La Sa]. destruct (two_digits _ Hb) as [Lb Sb].
  assert (Hlen : String.length (toString ma) = String.length (toString mb)).
  { apply (f_equal String.length) in H. rewrite !append_length in H.
    cbn [String.length] in H. lia. }
  destruct (append_same_length _ _ _ _ Hlen H) as [Hm Hs].
  apply toString_inj in Hm. injection Hs as Hs.
  rewrite Hs in Sa. rewrite Sa in Sb. injection Sb as Hsec.
  lia.
Qed.

Lemma formatTime_distinct_witness :
  formatTime 75 = "1:15"%string /\ (60 + 15 = 75)%nat.
Proof.
  split; [vm_compute; reflexivity |].
  apply (formatTime_distinct (60 + 15) 75). vm_compute. reflexivity.
Defined.

(** X23.  The text of a duration is the decimal digits of the whole minutes,
    a colon, and exactly two digits, which read as a number give the seconds
    left over; the minutes are not limited to two digits nor carried into
    hours. *)
Theorem formatTime_shape sec :
  exists digits,
    formatTime sec = append (toString (sec / 60)) (String ":"%char digits)
    /\ String.length digits = 2%nat
    /\ seconds_of digits = Some (sec mod 60)%nat.
Proof.
  exists (padStart 2 (toString (sec mod 60))). split; [reflexivity |].
  apply two_digits. apply Nat.mod_upper_bound. lia.
Qed.

(** X24.  Deleting the sketch that was just added gives back the list of
    before, when no other sketch of the list has the same id (the id is the
    millisecond of the save). *)
Theorem deleteSketch_undoes_add newSketch prev :
  Forall (fun s => s_id s <> s_id newSketch) prev ->
  deleteSketch (s_id newSketch) (addSketch newSketch prev) = prev.
Proof.
  intros Hfresh. unfold deleteSketch, addSketch. cbn [filter].
  rewrite String.eqb_refl. cbn [negb].
  induction Hfresh as [| s l Hs _ IH]; [reflexivity |].
  cbn [filter].
  destruct (String.eqb_spec (s_id s) (s_id newSketch)) as [E | _];
    [contradiction |].
  cbn [negb]. now rewrite IH.
Qed.

Lemma deleteSketch_undoes_add_witness :
  deleteSketch (s_id second_sketch) (addSketch second_sketch [first_sketch])
  = [first_sketch].
Proof.
  apply (deleteSketch_undoes_add second_sketch [first_sketch]).
  apply Forall_cons; [| apply Forall_nil].
  cbn [s_id first_sketch second_sketch]. discriminate.
Defined.

End RecorderFacts.
